(** * aioevproc: the event dispatch engine of [aioevproc/__init__.py]

    A shallow embedding of the [handler] decorator, of
    [EventsProcessor.__init_subclass__] and of
    [EventsProcessor.process_event], together with the part of
    [contextlib.AsyncExitStack] that [process_event] drives.

    User code (predicates, handler methods, coroutines, context managers)
    acts on an abstract [World] and may raise; the engine records every call
    it makes into user code as an observation, so that the order and the
    number of calls can be stated. *)

From Stdlib Require Import List String Bool ZArith Arith Lia.
Import ListNotations.
Local Open Scope string_scope.
Local Open Scope list_scope.

Set Implicit Arguments.
Set Warnings "-register-all".

(** ** Outcome of Python code that returns or raises *)

Inductive result (E A : Type) : Type :=
| Ok (a : A)
| Raise (e : E).
Arguments Ok {E A} a.
Arguments Raise {E A} e.

(** ** Declaration time: the [handler] decorator and class creation *)

Module Declaration.

(** The state of [handler_method.__handler_predicates__]. *)
Inductive handler_attr (P : Type) : Type :=
| AttrMissing                       (* hasattr(handler_method, _HANDLER_ATTR) is False *)
| AttrNone                          (* the attribute is None *)
| AttrList (l : list (list P)).     (* the attribute is a list of predicate tuples *)
Arguments AttrMissing {P}.
Arguments AttrNone {P}.
Arguments AttrList {P} l.

(** The only exception the declaration code raises itself. *)
Inductive decl_error : Type := AssertionError.

Section Decorator.
Variable P : Type.   (* predicates *)
Variable H : Type.   (* function objects *)

Definition hasattr (a : handler_attr P) : bool :=
  match a with
  | AttrMissing => false
  | _ => true
  end.

(** [handler] called with [predicates], then [decorator] applied to
    [handler_method]: the effect on the attribute of the method. The method
    itself is returned unchanged. The [assert] statements are executed, as
    they are when the test suite runs. *)
Definition handler (predicates : list P) (a : handler_attr P)
  : result decl_error (handler_attr P) :=
  match predicates with
  | [] =>
      (* assert hasattr(handler_method, _HANDLER_ATTR) is False *)
      if hasattr a then Raise AssertionError
      else Ok AttrNone
  | _ :: _ =>
      let a1 := if hasattr a then a else AttrList [] in
      match a1 with
      | AttrList _handler_predicates =>
          Ok (AttrList (_handler_predicates ++ [predicates]))
      | _ =>
          (* assert _handler_predicates is not None *)
          Raise AssertionError
      end
  end.

(** A stack of decorators, written top to bottom as in the source text:
    Python applies the one nearest to [def] first. *)
Fixpoint decorate (decorators : list (list P)) (a : handler_attr P)
  : result decl_error (handler_attr P) :=
  match decorators with
  | [] => Ok a
  | outer :: inner =>
      match decorate inner a with
      | Ok a' => handler outer a'
      | Raise e => Raise e
      end
  end.

(** A function object together with its attribute. *)
Record pyfunction : Type := MkFunction {
  fn_code : H;
  fn_attr : handler_attr P
}.

(** One [def] of a class body with the [@handler(...)] lines above it,
    top to bottom; a [def] creates a fresh function object. *)
Record member_def : Type := MkMember {
  def_name : string;
  def_decorators : list (list P);
  def_code : H
}.

(** The class namespace is a dict: insertion ordered, and binding a name
    again keeps the position of its first binding. *)
Definition namespace : Type := list (string * pyfunction).

Fixpoint ns_set (k : string) (v : pyfunction) (ns : namespace) : namespace :=
  match ns with
  | [] => [(k, v)]
  | (k', v') :: rest =>
      if String.eqb k k' then (k, v) :: rest
      else (k', v') :: ns_set k v rest
  end.

Fixpoint exec_body (body : list member_def) (ns : namespace)
  : result decl_error namespace :=
  match body with
  | [] => Ok ns
  | m :: rest =>
      match decorate (def_decorators m) AttrMissing with
      | Ok a => exec_body rest (ns_set (def_name m) (MkFunction (def_code m) a) ns)
      | Raise e => Raise e
      end
  end.

(** [cls._handlers]: pairs of an optional tuple of predicate tuples and a
    handler method. *)
Definition registry : Type := list (option (list (list P)) * H).

(** [EventsProcessor.__init_subclass__], over [cls.__dict__]. *)
Definition init_subclass (cls_dict : namespace) : registry :=
  map (fun handler_method =>
         (match fn_attr handler_method with
          | AttrList predicates => Some (rev predicates)
          | _ => None
          end,
          fn_code handler_method))
      (filter (fun handler_method => hasattr (fn_attr handler_method))
              (map snd cls_dict)).

(** A processor class object. *)
Record processor_class : Type := MkClass {
  _handlers : registry
}.

(** The [class T(EventsProcessor): ...] statement: run the body, then
    create the class, which calls [__init_subclass__] once. An exception in
    the body leaves no class behind. *)
Definition class_stmt (body : list member_def) : result decl_error processor_class :=
  match exec_body body [] with
  | Ok ns => Ok (MkClass (init_subclass ns))
  | Raise e => Raise e
  end.

(** The unconditional annotation: [handler] called without predicates. *)
Definition is_unconditional (d : list P) : bool :=
  match d with [] => true | _ => false end.

(** A conditional annotation carries at least one predicate. *)
Definition conditional (d : list P) : Prop := d <> [].

(** The attribute a stack of decorator lines that is accepted leaves on a
    fresh function. *)
Definition declared_attr (decorators : list (list P)) : handler_attr P :=
  match decorators with
  | [] => AttrMissing
  | _ :: _ =>
      if existsb is_unconditional decorators then AttrNone
      else AttrList (rev decorators)
  end.

(** The Predicate Group Set the decorator lines of a method denote: none
    for the unconditional annotation, else the AND-clauses top to bottom. *)
Definition declared_group (decorators : list (list P)) : option (list (list P)) :=
  if existsb is_unconditional decorators then None else Some decorators.

(** A member that carries at least one annotation. *)
Definition annotated (m : member_def) : bool :=
  match def_decorators m with
  | [] => false
  | _ :: _ => true
  end.

(** The binding a [def] with accepted annotations adds to the namespace. *)
Definition bound (m : member_def) : string * pyfunction :=
  (def_name m, MkFunction (def_code m) (declared_attr (def_decorators m))).

(** A stack of decorator lines that [decorator] accepts on a fresh
    function: none, the unconditional annotation alone, or conditional
    annotations only. *)
Definition acceptable (decorators : list (list P)) : Prop :=
  decorators = [[]] \/ Forall conditional decorators.

(** An attribute that is a list holds at least one tuple, and no empty
    tuple. *)
Definition attr_ok (a : handler_attr P) : Prop :=
  match a with
  | AttrList l => l <> [] /\ Forall conditional l
  | _ => True
  end.

(** Apply [f] to what a step of the class body returned, if it returned. *)
Definition on_ok {A B : Type} (f : A -> B) (r : result decl_error A)
  : result decl_error B :=
  match r with
  | Ok a => Ok (f a)
  | Raise e => Raise e
  end.

(** What a registry entry can hold as its group: nothing, or at least one
    AND-clause, each with at least one predicate. *)
Definition well_formed_group (g : option (list (list P))) : Prop :=
  match g with
  | None => True
  | Some clauses => clauses <> [] /\ Forall conditional clauses
  end.

End Decorator.

Arguments conditional {P} d.
Arguments declared_attr {P} decorators.
Arguments declared_group {P} decorators.
Arguments annotated {P H} m.
Arguments bound {P H} m.
Arguments acceptable {P} decorators.
Arguments attr_ok {P} a.
Arguments well_formed_group {P} g.

End Declaration.

(** ** Order preserving sublists *)

Inductive subsequence {A : Type} : list A -> list A -> Prop :=
| sub_nil : forall l, subsequence [] l
| sub_skip : forall x l1 l2, subsequence l1 l2 -> subsequence l1 (x :: l2)
| sub_take : forall x l1 l2, subsequence l1 l2 -> subsequence (x :: l1) (x :: l2).

(** ** Run time: values, user code and observations *)

Module Engine.

Section Model.
Variable World : Type.   (* everything user code can read and change *)
Variable Event : Type.   (* the opaque event *)
Variable Exn : Type.     (* exception objects *)

(** User code: runs on the world, returns or raises. *)
Definition action (A : Type) : Type := World -> result Exn A * World.

(** The Python values a predicate, a handler method, a coroutine or a
    context manager method can produce. An object that implements both
    context manager protocols is classified by the first [isinstance]
    test that succeeds, the asynchronous one, and is represented by
    [VAsyncCM] with its [__aenter__] and [__aexit__]. *)
Inductive pyval : Type :=
| VNone
| VBool (b : bool)
| VInt (z : Z)
| VStr (s : string)
| VList (l : list pyval)
| VObject (name : string)                  (* any other object, with default truth *)
| VCoroutine (run : World -> result Exn pyval * World)
| VAsyncCM (name : string)
           (aenter : World -> result Exn pyval * World)
           (aexit : option Exn -> World -> result Exn pyval * World)
| VSyncCM (name : string)
          (enter : World -> result Exn pyval * World)
          (exit : option Exn -> World -> result Exn pyval * World).

(** Python truth value testing, as [if not x], [all] and [any] use it. *)
Definition truthy (v : pyval) : bool :=
  match v with
  | VNone => false
  | VBool b => b
  | VInt z => negb (Z.eqb z 0)
  | VStr s => negb (String.eqb s EmptyString)
  | VList l => match l with [] => false | _ :: _ => true end
  | VObject _ => true
  | VCoroutine _ => true
  | VAsyncCM _ _ _ => true
  | VSyncCM _ _ _ => true
  end.

(** A predicate: a callable with an identity. *)
Record predicate : Type := MkPredicate {
  pred_name : string;
  pred_call : Event -> action pyval
}.

(** A handler method; [self] carries no state of the engine, what the
    method does to its processor is part of the world. *)
Record handler_method : Type := MkHandler {
  hm_name : string;
  hm_call : Event -> action pyval
}.

(** How the exit method of a context manager ended. *)
Inductive exit_outcome : Type :=
| ExitFalsy
| ExitTruthy
| ExitRaised (e : Exn).

(** The calls the engine makes into user code, in order. *)
Inductive obs : Type :=
| ObsPred (p : string)                       (* pred(event) *)
| ObsCall (h : string)                       (* handler_method(self, event) *)
| ObsAwait                                   (* await ret_val *)
| ObsEnter (is_sync : bool) (cm : string) (entered : bool)
| ObsExit (is_sync : bool) (cm : string) (exc : option Exn) (out : exit_outcome).

(** An entry of [AsyncExitStack._exit_callbacks]. *)
Record exit_callback : Type := MkCallback {
  cb_is_sync : bool;
  cb_name : string;
  cb_exit : option Exn -> action pyval
}.

(** What identifies an entered scope in the log. *)
Definition cb_key (cb : exit_callback) : bool * string :=
  (cb_is_sync cb, cb_name cb).

(** The state a dispatch threads: the world and the exit stack, whose most
    recently pushed callback is the head of the list. *)
Record state : Type := MkState {
  world : World;
  exit_callbacks : list exit_callback
}.

(** Engine code: changes the state, returns or raises, and emits
    observations. The state is kept when an exception propagates. *)
Definition M (A : Type) : Type := state -> result Exn A * state * list obs.

Definition ret {A} (a : A) : M A := fun st => (Ok a, st, []).

(** Put observations in front of what a computation emits. *)
Definition after {A S : Type} (l : list obs) (x : A * S * list obs)
  : A * S * list obs :=
  match x with
  | (r, st, l') => (r, st, l ++ l')
  end.

Definition bind {A B} (m : M A) (k : A -> M B) : M B :=
  fun st =>
    match m st with
    | (Ok a, st1, l1) => after l1 (k a st1)
    | (Raise e, st1, l1) => (Raise e, st1, l1)
    end.

(** What a log says about handler calls, about scopes entered (the enter
    method returned) and about scopes exited. *)
Definition calls_of (log : list obs) : list string :=
  flat_map (fun o => match o with ObsCall h => [h] | _ => [] end) log.

Definition entered_of (log : list obs) : list (bool * string) :=
  flat_map (fun o => match o with
                     | ObsEnter is_sync cm true => [(is_sync, cm)]
                     | _ => []
                     end) log.

Definition exited_of (log : list obs) : list (bool * string) :=
  flat_map (fun o => match o with
                     | ObsExit is_sync cm _ _ => [(is_sync, cm)]
                     | _ => []
                     end) log.

(** Call into user code and record the call. *)
Definition perform {A} (act : action A) (o : result Exn A -> obs) : M A :=
  fun st =>
    match act (world st) with
    | (r, w) => (r, MkState w (exit_callbacks st), [o r])
    end.

Definition push (cb : exit_callback) : M unit :=
  fun st => (Ok tt, MkState (world st) (cb :: exit_callbacks st), []).

(** Calls that are neither handler calls nor scope entries or exits. *)
Definition plain (o : obs) : Prop :=
  match o with
  | ObsPred _ | ObsAwait => True
  | _ => False
  end.

(** [tidy m hs]: whatever [m] does, the handler calls it logs are drawn in
    order from [hs], it exits nothing, and it leaves on the stack exactly
    the scopes it entered, the latest on top. *)
Definition tidy {A : Type} (m : M A) (hs : list string) : Prop :=
  forall st r st' l,
    m st = (r, st', l) ->
    subsequence (calls_of l) hs /\
    exited_of l = [] /\
    map cb_key (exit_callbacks st')
    = rev (entered_of l) ++ map cb_key (exit_callbacks st).

(** A value that is neither a coroutine nor a context manager. *)
Definition plain_value (v : pyval) : bool :=
  match v with
  | VCoroutine _ | VAsyncCM _ _ _ | VSyncCM _ _ _ => false
  | _ => true
  end.

(** A context manager of either protocol. *)
Definition is_scope (v : pyval) : bool :=
  match v with
  | VAsyncCM _ _ _ | VSyncCM _ _ _ => true
  | _ => false
  end.

(** What each exit action observed and how it ended, in the order of the
    calls. *)
Definition exit_records (log : list obs) : list (option Exn * exit_outcome) :=
  flat_map (fun o => match o with
                     | ObsExit _ _ exc out => [(exc, out)]
                     | _ => []
                     end) log.

Definition passed (x : option Exn * exit_outcome) : bool :=
  match snd x with ExitFalsy => true | _ => false end.

Definition suppressed (x : option Exn * exit_outcome) : bool :=
  match snd x with ExitTruthy => true | _ => false end.

Definition raised (x : option Exn * exit_outcome) : bool :=
  match snd x with ExitRaised _ => true | _ => false end.

(** A call of an exit method. *)
Definition is_exit (o : obs) : bool :=
  match o with
  | ObsExit _ _ _ _ => true
  | _ => false
  end.

(** The outcome of the last exit action among [xs] that did not return a
    false value, if there is one. *)
Definition last_decisive (xs : list (option Exn * exit_outcome))
  : option exit_outcome :=
  match find (fun x => negb (passed x)) (rev xs) with
  | Some x => Some (snd x)
  | None => None
  end.

(** The exception in flight once the exit actions [xs] have run, when it
    was [exc] before them: the last one that raised or suppressed decides. *)
Definition left_by (exc : option Exn) (xs : list (option Exn * exit_outcome))
  : option Exn :=
  match last_decisive xs with
  | Some (ExitRaised e) => Some e
  | Some ExitTruthy => None
  | _ => exc
  end.

End Model.

Arguments VNone {World Exn}.
Arguments VBool {World Exn} b.
Arguments VInt {World Exn} z.
Arguments VStr {World Exn} s.
Arguments VList {World Exn} l.
Arguments VObject {World Exn} name.
Arguments VCoroutine {World Exn} run.
Arguments VAsyncCM {World Exn} name aenter aexit.
Arguments VSyncCM {World Exn} name enter exit.
Arguments ExitFalsy {Exn}.
Arguments ExitTruthy {Exn}.
Arguments ExitRaised {Exn} e.
Arguments ObsPred {Exn} p.
Arguments ObsCall {Exn} h.
Arguments ObsAwait {Exn}.
Arguments ObsEnter {Exn} is_sync cm entered.
Arguments ObsExit {Exn} is_sync cm exc out.
Arguments ret {World Exn A} a.
Arguments after {Exn A S} l x.
Arguments cb_key {World Exn} cb.
Arguments plain {Exn} o.
Arguments tidy {World Exn A} m hs.
Arguments plain_value {World Exn} v.
Arguments is_scope {World Exn} v.
Arguments exit_records {Exn} log.
Arguments passed {Exn} x.
Arguments suppressed {Exn} x.
Arguments raised {Exn} x.
Arguments last_decisive {Exn} xs.
Arguments is_exit {Exn} o.
Arguments left_by {Exn} exc xs.
Arguments calls_of {Exn} log.
Arguments entered_of {Exn} log.
Arguments exited_of {Exn} log.
Arguments push {World Exn} cb.

Declare Scope engine_scope.
Delimit Scope engine_scope with engine.
Notation "x <- m ;; k" := (bind m (fun x => k))
  (at level 61, m at next level, right associativity) : engine_scope.
Notation "m ;;; k" := (bind m (fun _ => k))
  (at level 61, right associativity) : engine_scope.
Local Open Scope engine_scope.

Section Dispatch.
Variable World : Type.
Variable Event : Type.
Variable Exn : Type.

Local Abbreviation pyval := (pyval World Exn).
Local Abbreviation predicate := (predicate World Event Exn).
Local Abbreviation handler_method := (handler_method World Event Exn).
Local Abbreviation M := (M World Exn).

(** [pred(event)] *)
Definition call_pred (event : Event) (pred : predicate) : M pyval :=
  perform (pred_call pred event) (fun _ => ObsPred (pred_name pred)).

(** The builtin [all] over a generator: the items are computed one by one
    and none is computed after the first falsy one. *)
Fixpoint py_all (gen : list (M pyval)) : M bool :=
  match gen with
  | [] => ret true
  | item :: rest =>
      v <- item ;;
      if truthy v then py_all rest else ret false
  end.

(** The builtin [any] over a generator of booleans: none is computed after
    the first true one. *)
Fixpoint py_any (gen : list (M bool)) : M bool :=
  match gen with
  | [] => ret false
  | item :: rest =>
      b <- item ;;
      if b then ret true else py_any rest
  end.

(** The test guarding [continue]:
    [or_predicates is not None and not any(all(pred(event) ...) ...)]. *)
Definition skips (or_predicates : option (list (list predicate)))
           (event : Event) : M bool :=
  match or_predicates with
  | None => ret false
  | Some clauses =>
      b <- py_any (map (fun and_predicates =>
                          py_all (map (call_pred event) and_predicates))
                       clauses) ;;
      ret (negb b)
  end.

(** [AsyncExitStack.enter_async_context] and [enter_context]: the exit
    method is pushed only when the enter method returned. *)
Definition enter_context (is_sync : bool) (name : string)
           (enter : action World Exn pyval)
           (exit : option Exn -> action World Exn pyval) : M pyval :=
  result_ <- perform enter
               (fun r => ObsEnter is_sync name
                           (match r with Ok _ => true | Raise _ => false end)) ;;
  push (MkCallback is_sync name exit) ;;;
  ret result_.

(** The [if asyncio.iscoroutine ... elif ... else] cascade: the value of
    [call_next_handlers] after it. *)
Definition classify (ret_val : pyval) : M pyval :=
  match ret_val with
  | VCoroutine run => perform run (fun _ => ObsAwait)
  | VAsyncCM name aenter aexit =>
      enter_context false name aenter aexit ;;; ret (VBool true)
  | VSyncCM name enter exit =>
      enter_context true name enter exit ;;; ret (VBool true)
  | _ => ret ret_val
  end.

(** How a [for] loop ended: by running out of items or by [break]. *)
Inductive loop_exit : Type := Exhausted | Broke.

(** The loop body after the [continue] test, with the rest of the loop
    as [next]. *)
Definition invoke (hm : handler_method) (event : Event)
           (next : M loop_exit) : M loop_exit :=
  ret_val <- perform (hm_call hm event) (fun _ => ObsCall (hm_name hm)) ;;
  call_next_handlers <- classify ret_val ;;
  if negb (truthy call_next_handlers) then ret Broke else next.

(** [for or_predicates, handler_method in self._handlers: ...] *)
Fixpoint run_handlers
         (handlers : list (option (list (list predicate)) * handler_method))
         (event : Event) : M loop_exit :=
  match handlers with
  | [] => ret Exhausted
  | (or_predicates, hm) :: rest =>
      skip <- skips or_predicates event ;;
      if skip then run_handlers rest event
      else invoke hm event (run_handlers rest event)
  end.

(** [AsyncExitStack.__aexit__] of CPython's [contextlib]: the
    [while self._exit_callbacks] loop with its three variables. Each turn
    pops the callback pushed last and calls it with the current exception;
    a true result clears the exception, an exception raised by the callback
    replaces it and stays pending. *)
Fixpoint aexit_loop (cbs : list (exit_callback World Exn))
         (exc_details : option Exn) (suppressed_exc pending_raise : bool)
         (w : World)
  : (option Exn * bool * bool) * World * list (obs Exn) :=
  match cbs with
  | [] => ((exc_details, suppressed_exc, pending_raise), w, [])
  | cb :: rest =>
      match cb_exit cb exc_details w with
      | (Ok cb_suppress, w1) =>
          if truthy cb_suppress then
            match aexit_loop rest None true false w1 with
            | (r, w2, l) =>
                (r, w2, ObsExit (cb_is_sync cb) (cb_name cb) exc_details ExitTruthy :: l)
            end
          else
            match aexit_loop rest exc_details suppressed_exc pending_raise w1 with
            | (r, w2, l) =>
                (r, w2, ObsExit (cb_is_sync cb) (cb_name cb) exc_details ExitFalsy :: l)
            end
      | (Raise new_exc, w1) =>
          match aexit_loop rest (Some new_exc) suppressed_exc true w1 with
          | (r, w2, l) =>
              (r, w2, ObsExit (cb_is_sync cb) (cb_name cb) exc_details (ExitRaised new_exc) :: l)
          end
      end
  end.

(** [__aexit__] as a whole: raises the pending exception, or returns
    [received_exc and suppressed_exc]. *)
Definition aexit (cbs : list (exit_callback World Exn)) (exc : option Exn)
           (w : World) : result Exn bool * World * list (obs Exn) :=
  let received_exc := match exc with Some _ => true | None => false end in
  match aexit_loop cbs exc false false w with
  | ((exc_details, suppressed_exc, pending_raise), w', l) =>
      (if pending_raise then
         match exc_details with
         | Some e => Raise e
         | None => Ok false     (* not reached: a pending raise has an exception *)
         end
       else Ok (received_exc && suppressed_exc),
       w', l)
  end.

(** [EventsProcessor.process_event], with [handlers] for [self._handlers]:
    the loop inside [async with AsyncExitStack() as middlewares_stack]. The
    [async with] statement calls [__aexit__] with the exception of the block,
    if any, and re-raises it unless [__aexit__] returns a true value. *)
Definition process_event
           (handlers : list (option (list (list predicate)) * handler_method))
           (event : Event) (w : World)
  : result Exn unit * World * list (obs Exn) :=
  match run_handlers handlers event (MkState w []) with
  | (body, st, l1) =>
      let exc := match body with Ok _ => None | Raise e => Some e end in
      match aexit (exit_callbacks st) exc (world st) with
      | (Raise e', w', l2) => (Raise e', w', l1 ++ l2)
      | (Ok suppress, w', l2) =>
          (match body with
           | Ok _ => Ok tt
           | Raise e => if suppress then Ok tt else Raise e
           end, w', l1 ++ l2)
      end
  end.

(** Run [k] after [m] when [m] ran out of declarations. *)
Definition and_then (m k : M loop_exit) : M loop_exit :=
  fun st =>
    match m st with
    | (Ok Exhausted, st1, l1) => after l1 (k st1)
    | other => other
    end.

(** The names of the handler methods of a registry, in its order. *)
Definition method_names
           (handlers : list (option (list (list predicate)) * handler_method))
  : list string :=
  map (fun d => hm_name (snd d)) handlers.

(** A predicate that is a pure function of the event: called on [event] it
    returns [val p] and leaves the world as it was. *)
Definition pure_at (event : Event) (val : predicate -> pyval) (p : predicate)
  : Prop :=
  forall w, pred_call p event w = (Ok (val p), w).

Definition group_pure (event : Event) (val : predicate -> pyval)
           (g : option (list (list predicate))) : Prop :=
  match g with
  | None => True
  | Some clauses => Forall (Forall (pure_at event val)) clauses
  end.

(** The truth value of what a pure predicate returns. *)
Definition holds (val : predicate -> pyval) (p : predicate) : bool :=
  truthy (val p).

(** The log of calling the predicates [ps] in order. *)
Definition names (ps : list predicate) : list (obs Exn) :=
  map (fun p => ObsPred (pred_name p)) ps.

(** An instance of a processor class. [EventsProcessor] defines neither
    [__init__] nor an instance attribute, so [self._handlers] is the
    attribute of the class of [self]. *)
Record instance : Type := MkInstance {
  inst_class : Declaration.processor_class predicate handler_method
}.

(** [self.process_event(event)] *)
Definition dispatch (self : instance) (event : Event) (w : World)
  : result Exn unit * World * list (obs Exn) :=
  process_event (Declaration._handlers (inst_class self)) event w.

End Dispatch.

Arguments and_then {World Exn} m k st.
Arguments method_names {World Event Exn} handlers.
Arguments pure_at {World Event Exn} event val p.
Arguments group_pure {World Event Exn} event val g.
Arguments holds {World Event Exn} val p.
Arguments names {World Event Exn} ps.

End Engine.

(** ** The matching rule as the specification words it

    A second definition, independent of the engine's [any]/[all] loops:
    which predicates are to be called, and whether the group matches, for
    predicates that are pure functions of the event. *)

Module Spec.

Section Matching.
Variable P : Type.
Variable holds : P -> bool.   (* the predicate returns a true value *)

(** The items of [l] up to and including the first one where [stop] holds. *)
Fixpoint up_to_first {A : Type} (stop : A -> bool) (l : list A) : list A :=
  match l with
  | [] => []
  | x :: rest => if stop x then [x] else x :: up_to_first stop rest
  end.

(** An AND-clause matches iff every predicate of it is true. *)
Definition clause_matches (clause : list P) : bool := forallb holds clause.

(** No Predicate Group Set matches unconditionally; otherwise some
    AND-clause has to match. *)
Definition group_matches (group : option (list (list P))) : bool :=
  match group with
  | None => true
  | Some clauses => existsb clause_matches clauses
  end.

(** Within an AND-clause nothing is called past the first false predicate. *)
Definition clause_calls (clause : list P) : list P :=
  up_to_first (fun p => negb (holds p)) clause.

(** No AND-clause is evaluated past the first matching one. *)
Definition group_calls (group : option (list (list P))) : list P :=
  match group with
  | None => []
  | Some clauses => flat_map clause_calls (up_to_first clause_matches clauses)
  end.

End Matching.

End Spec.

(** ** Concrete processors

    Events are the records of the docstring of [handler]; the world is the
    journal the mocks of the test suite keep; an exception is named by its
    class. *)

Module Examples.
Import Engine.

Record event : Type := MkEvent {
  ev_type : string;
  ev_text : string
}.

Definition world : Type := list string.
Definition exn : Type := string.

Definition pure_predicate (name : string) (f : event -> bool)
  : predicate world event exn :=
  MkPredicate name (fun ev w => (Ok (VBool (f ev)), w)).

(** The processor of the docstring of [handler]. *)
Definition is_bot_started : predicate world event exn :=
  pure_predicate "is_bot_started" (fun ev => String.eqb (ev_type ev) "bot_started").

Definition is_message_created : predicate world event exn :=
  pure_predicate "is_message_created"
                 (fun ev => String.eqb (ev_type ev) "message_created").

Definition is_start_command : predicate world event exn :=
  pure_predicate "is_start_command" (fun ev => String.eqb (ev_text ev) "/start").


Definition handle_event : handler_method world event exn :=
  MkHandler "handle_event" (fun _ w => (Ok VNone, w ++ ["handle_event"])).

Definition docstring_group : option (list (list (predicate world event exn))) :=
  Some [[is_bot_started]; [is_message_created; is_start_command]].

Definition start_message : event := MkEvent "message_created" "/start".

Definition other_message : event := MkEvent "message_edited" "hello".

(** The value a pure predicate returns for an event. *)
Definition value_at (ev : event) (p : predicate world event exn) : pyval world exn :=
  match pred_call p ev [] with
  | (Ok v, _) => v
  | (Raise _, _) => VNone
  end.

Definition fresh : state world exn := MkState [] [].

Definition registry : Type :=
  list (option (list (list (predicate world event exn)))
        * handler_method world event exn).

(** A synchronous handler that notes its call in the journal and returns
    [v], as the handlers of the test suite call their mock. *)
Definition noting (name : string) (v : pyval world exn)
  : handler_method world event exn :=
  MkHandler name (fun _ w => (Ok v, w ++ [name])).

(** [HandlerReturnsFalsyValueTestCase.test_none]. *)
Definition first_handler : handler_method world event exn :=
  noting "first_handler" VNone.

Definition second_handler : handler_method world event exn :=
  noting "second_handler" VNone.

Definition test_none : registry :=
  [(None, first_handler); (None, second_handler)].

(** [HandlerReturnsTruthyValueTestCase.test_truthy_value]. *)
Definition handler_returns_abc : handler_method world event exn :=
  noting "handler_returns_abc" (VStr "abc").

Definition handler_returns_zero : handler_method world event exn :=
  noting "handler_returns_zero" (VInt 0).

(** A handler that raises, as the mock with [side_effect=RuntimeError]. *)
Definition boom : handler_method world event exn :=
  MkHandler "boom" (fun _ w => (Raise "RuntimeError", w ++ ["boom"])).

(** Generator based context managers, by what their [__exit__] does. *)
Definition scope (name : string)
           (on_exit : option exn -> world -> result exn (pyval world exn) * world)
  : pyval world exn :=
  VSyncCM name (fun w => (Ok VNone, w ++ [String.append name ".enter"])) on_exit.

(** [try: yield / except RuntimeError: ...] of
    [MiddlewareTestCase.test_sync_exception]. *)
Definition guard : pyval world exn :=
  scope "guard"
        (fun exc w =>
           match exc with
           | Some e =>
               if String.eqb e "RuntimeError"
               then (Ok (VBool true), w ++ ["guard.caught"])
               else (Ok (VBool false), w)
           | None => (Ok (VBool false), w)
           end).

(** A plain [yield] followed by clean-up code. *)
Definition watcher : pyval world exn :=
  scope "watcher"
        (fun exc w =>
           match exc with
           | Some _ => (Ok (VBool false), w)
           | None => (Ok (VBool false), w ++ ["watcher.exit"])
           end).



(** Clean-up code that raises whatever the block did. *)
Definition leaking (name : string) (e : exn) : pyval world exn :=
  scope name (fun _ w => (Raise e, w ++ [String.append name ".exit"])).

Definition middleware (name : string) (cm : pyval world exn)
  : handler_method world event exn :=
  MkHandler name (fun _ w => (Ok cm, w)).


Definition guarded_in_watcher : registry :=
  [(None, middleware "watch" watcher);
   (None, middleware "sync_middleware" guard);
   (None, boom)].

(** An [async def] handler whose result is a context manager. *)
Definition async_returns_scope : handler_method world event exn :=
  MkHandler "async_returns_scope"
            (fun _ w => (Ok (VCoroutine (fun w' => (Ok guard, w' ++ ["resolved"]))), w)).

(** Class bodies. *)
Definition member : Type :=
  Declaration.member_def (predicate world event exn) (handler_method world event exn).

Definition always_true : predicate world event exn :=
  pure_predicate "always_true" (fun _ => true).

(** [PredicatesDisjunctionTestCase.test_no_predicates_assertion]. *)
Definition incorrect_body : list member :=
  [Declaration.MkMember "handler_with_incorrect_predicates"
                        [[]; [always_true]] handle_event].

Definition docstring_decorators : list (list (predicate world event exn)) :=
  [[is_bot_started]; [is_message_created; is_start_command]].

Definition docstring_body : list member :=
  [Declaration.MkMember "handle_event" docstring_decorators handle_event].

Definition helper : handler_method world event exn := noting "helper" VNone.

(** A middleware, a method without annotation and two handlers. *)
Definition bot_body : list member :=
  [Declaration.MkMember "sync_middleware" [[]] (middleware "sync_middleware" guard);
   Declaration.MkMember "helper" [] helper;
   Declaration.MkMember "handle_event" docstring_decorators handler_returns_abc;
   Declaration.MkMember "second_handler" [[]] second_handler].

(** A class body that defines [handle_event] twice. *)
Definition early_definition : member :=
  Declaration.MkMember "handle_event" [[]] boom.

Definition late_definition : member :=
  Declaration.MkMember "handle_event" docstring_decorators handle_event.

Definition between_definitions : list member :=
  [Declaration.MkMember "second_handler" [[]] second_handler].

End Examples.

(** * Properties *)

Import Engine.
Local Open Scope engine_scope.

(** ** Sublists *)

Section SubsequenceFacts.
Context {A : Type}.

Lemma subsequence_refl (l : list A) : subsequence l l.
Proof. induction l; constructor; assumption. Qed.

Lemma subsequence_app (l1 l2 m1 m2 : list A) :
  subsequence l1 m1 -> subsequence l2 m2 -> subsequence (l1 ++ l2) (m1 ++ m2).
Proof.
  intros H1 H2. induction H1; simpl.
  - induction l as [|x l IH]; simpl; [assumption | now constructor].
  - now constructor.
  - now constructor.
Qed.

Lemma subsequence_In (l m : list A) (x : A) :
  subsequence l m -> In x l -> In x m.
Proof.
  induction 1; simpl; intros Hin.
  - contradiction.
  - right. auto.
  - destruct Hin; [left | right]; auto.
Qed.

Lemma subsequence_skip_front (l m pre : list A) :
  subsequence l m -> subsequence l (pre ++ m).
Proof. intros H. induction pre; simpl; [assumption | now constructor]. Qed.

End SubsequenceFacts.

(** ** What a computation of the engine leaves in the log and on the stack *)

Section Footprint.
Context {World Event Exn : Type}.

Local Abbreviation pyval := (pyval World Exn).
Local Abbreviation predicate := (predicate World Event Exn).
Local Abbreviation handler_method := (handler_method World Event Exn).
Local Abbreviation state := (state World Exn).
Local Abbreviation M := (M World Exn).

Lemma after_nil {A S : Type} (x : A * S * list (obs Exn)) : after [] x = x.
Proof. destruct x as [[r st] l]. reflexivity. Qed.

Lemma after_after {A S : Type} l1 l2 (x : A * S * list (obs Exn)) :
  after l1 (after l2 x) = after (l1 ++ l2) x.
Proof. destruct x as [[r st] l]. simpl. now rewrite app_assoc. Qed.

Lemma calls_of_app (l1 l2 : list (obs Exn)) :
  calls_of (l1 ++ l2) = calls_of l1 ++ calls_of l2.
Proof. apply flat_map_app. Qed.

Lemma entered_of_app (l1 l2 : list (obs Exn)) :
  entered_of (l1 ++ l2) = entered_of l1 ++ entered_of l2.
Proof. apply flat_map_app. Qed.

Lemma exited_of_app (l1 l2 : list (obs Exn)) :
  exited_of (l1 ++ l2) = exited_of l1 ++ exited_of l2.
Proof. apply flat_map_app. Qed.

Lemma tidy_ret {A : Type} (a : A) : tidy (ret a : M A) [].
Proof.
  intros st r st' l E. injection E as <- <- <-. simpl.
  repeat split. constructor.
Qed.

Lemma tidy_weaken {A : Type} (m : M A) hs pre :
  tidy m hs -> tidy m (pre ++ hs).
Proof.
  intros Hm st r st' l E. destruct (Hm _ _ _ _ E) as (Hc & Hx & Hs).
  repeat split; auto using subsequence_skip_front.
Qed.

Lemma tidy_bind {A B : Type} (m : M A) (k : A -> M B) hs1 hs2 :
  tidy m hs1 -> (forall a, tidy (k a) hs2) -> tidy (bind m k) (hs1 ++ hs2).
Proof.
  intros Hm Hk st r st' l E. unfold bind in E.
  destruct (m st) as [[r1 st1] l1] eqn:E1.
  destruct (Hm _ _ _ _ E1) as (Hc1 & Hx1 & Hs1).
  destruct r1 as [a|e].
  - destruct (k a st1) as [[r2 st2] l2] eqn:E2. simpl in E.
    injection E as <- <- <-.
    destruct (Hk a _ _ _ _ E2) as (Hc2 & Hx2 & Hs2).
    rewrite calls_of_app, exited_of_app, entered_of_app, Hx1, Hx2, Hs2, Hs1.
    repeat split.
    + now apply subsequence_app.
    + now rewrite rev_app_distr, app_assoc.
  - injection E as <- <- <-. repeat split; auto.
    rewrite <- (app_nil_r (calls_of l1)). apply subsequence_app; [assumption|constructor].
Qed.

Lemma tidy_bind_nil {A B : Type} (m : M A) (k : A -> M B) hs :
  tidy m [] -> (forall a, tidy (k a) hs) -> tidy (bind m k) hs.
Proof. intros Hm Hk. change hs with ([] ++ hs). now apply tidy_bind. Qed.

Lemma tidy_perform_plain {A : Type} (act : action World Exn A) o :
  (forall r, plain (o r)) -> tidy (perform act o) [].
Proof.
  intros Ho st r st' l E. unfold perform in E.
  destruct (act (world st)) as [r1 w1]. injection E as <- <- <-.
  specialize (Ho r1). simpl.
  destruct (o r1); try contradiction; simpl; repeat split; constructor.
Qed.

Lemma tidy_call (hm : handler_method) (event : Event) :
  tidy (perform (hm_call hm event) (fun _ => ObsCall (hm_name hm))) [hm_name hm].
Proof.
  intros st r st' l E. unfold perform in E.
  destruct (hm_call hm event (world st)) as [r1 w1]. injection E as <- <- <-.
  simpl. repeat split. apply subsequence_refl.
Qed.

Lemma tidy_enter_context is_sync name
      (enter : action World Exn pyval) (exit : option Exn -> action World Exn pyval) :
  tidy (enter_context is_sync name enter exit) [].
Proof.
  intros st r st' l E. unfold enter_context, bind, perform, push, ret in E.
  destruct (enter (world st)) as [[v|e] w1]; simpl in E; injection E as <- <- <-;
    simpl; repeat split; constructor.
Qed.

Lemma tidy_classify (ret_val : pyval) : tidy (classify ret_val) [].
Proof.
  destruct ret_val; simpl; try apply tidy_ret.
  - now apply tidy_perform_plain.
  - apply tidy_bind_nil; [apply tidy_enter_context | intros; apply tidy_ret].
  - apply tidy_bind_nil; [apply tidy_enter_context | intros; apply tidy_ret].
Qed.

Lemma tidy_py_all (gen : list (M pyval)) :
  Forall (fun item => tidy item []) gen -> tidy (py_all gen) [].
Proof.
  induction 1 as [|item gen Hitem _ IH]; simpl; [apply tidy_ret|].
  apply tidy_bind_nil; [assumption|].
  intros v. destruct (truthy v); [assumption | apply tidy_ret].
Qed.

Lemma tidy_py_any (gen : list (M bool)) :
  Forall (fun item => tidy item []) gen -> tidy (py_any gen) [].
Proof.
  induction 1 as [|item gen Hitem _ IH]; simpl; [apply tidy_ret|].
  apply tidy_bind_nil; [assumption|].
  intros b. destruct b; [apply tidy_ret | assumption].
Qed.

Lemma tidy_skips (g : option (list (list predicate))) (event : Event) :
  tidy (skips g event) [].
Proof.
  destruct g as [clauses|]; simpl; [|apply tidy_ret].
  apply tidy_bind_nil; [|intros; apply tidy_ret].
  apply tidy_py_any. apply Forall_map, Forall_forall. intros c _.
  apply tidy_py_all. apply Forall_map, Forall_forall. intros p _.
  now apply tidy_perform_plain.
Qed.

Lemma tidy_invoke (hm : handler_method) (event : Event) next hs :
  tidy next hs -> tidy (invoke hm event next) (hm_name hm :: hs).
Proof.
  intros Hn. unfold invoke.
  change (hm_name hm :: hs) with ([hm_name hm] ++ hs).
  apply tidy_bind; [apply tidy_call|].
  intros ret_val. apply tidy_bind_nil; [apply tidy_classify|].
  intros v. destruct (negb (truthy v)); [|assumption].
  rewrite <- (app_nil_r hs). apply tidy_weaken, tidy_ret.
Qed.

Lemma tidy_run_handlers
      (handlers : list (option (list (list predicate)) * handler_method))
      (event : Event) :
  tidy (run_handlers handlers event) (map (fun d => hm_name (snd d)) handlers).
Proof.
  induction handlers as [|[g hm] rest IH]; simpl; [apply tidy_ret|].
  apply tidy_bind_nil; [apply tidy_skips|].
  intros skip. destruct skip.
  - apply (@tidy_weaken _ _ _ [hm_name hm]). exact IH.
  - now apply tidy_invoke.
Qed.

(** The unwinding loop exits the stack from the top, once each, and calls
    nothing else. *)
Lemma aexit_loop_log (cbs : list (exit_callback World Exn)) exc s p w :
  let '(_, _, l) := aexit_loop cbs exc s p w in
  calls_of l = [] /\ entered_of l = [] /\ exited_of l = map cb_key cbs.
Proof.
  revert exc s p w. induction cbs as [|cb rest IH]; intros exc s p w; simpl.
  - repeat split.
  - destruct (cb_exit cb exc w) as [[v|e] w1].
    + destruct (truthy v).
      * specialize (IH None true false w1).
        destruct (aexit_loop rest None true false w1) as [[r w2] l].
        destruct IH as (? & ? & ?). simpl. repeat split; auto. now f_equal.
      * specialize (IH exc s p w1).
        destruct (aexit_loop rest exc s p w1) as [[r w2] l].
        destruct IH as (? & ? & ?). simpl. repeat split; auto. now f_equal.
    + specialize (IH (Some e) s true w1).
      destruct (aexit_loop rest (Some e) s true w1) as [[r w2] l].
      destruct IH as (? & ? & ?). simpl. repeat split; auto. now f_equal.
Qed.

Lemma aexit_log (cbs : list (exit_callback World Exn)) exc w :
  let '(_, _, l) := aexit cbs exc w in
  calls_of l = [] /\ entered_of l = [] /\ exited_of l = map cb_key cbs.
Proof.
  unfold aexit. pose proof (aexit_loop_log cbs exc false false w) as H.
  destruct (aexit_loop cbs exc false false w) as [[[[e s] p] w'] l]. exact H.
Qed.

End Footprint.


(** ** The loop body *)

Section LoopFacts.
Context {World Event Exn : Type}.

Local Abbreviation pyval := (pyval World Exn).
Local Abbreviation predicate := (predicate World Event Exn).
Local Abbreviation handler_method := (handler_method World Event Exn).
Local Abbreviation state := (state World Exn).
Local Abbreviation M := (M World Exn).

Lemma subsequence_nil_r {A : Type} (l : list A) : subsequence l [] -> l = [].
Proof. now inversion 1. Qed.

Lemma classify_calls (ret_val : pyval) st r st' l :
  classify ret_val st = (r, st', l) -> calls_of l = [].
Proof.
  intros E. destruct (tidy_classify ret_val _ E) as (Hc & _).
  now apply subsequence_nil_r.
Qed.

(** One run of the loop body: the handler method is called once, then its
    result is interpreted, then the loop either goes on with [next] or
    ends. *)
Lemma invoke_shape (hm : handler_method) (event : Event) (next : M loop_exit)
      st r st' l :
  invoke hm event next st = (r, st', l) ->
  exists l0 tail,
    l = ObsCall (hm_name hm) :: l0 ++ tail /\
    calls_of l0 = [] /\
    (tail = [] \/ exists st1, next st1 = (r, st', tail)).
Proof.
  unfold invoke, bind, perform. intros E.
  destruct (hm_call hm event (world st)) as [[ret_val|e] w1].
  - destruct (classify ret_val (MkState w1 (exit_callbacks st)))
      as [[[v|e] st1] l0] eqn:Ec.
    + destruct (negb (truthy v)).
      * simpl in E. injection E as <- <- <-.
        exists l0, []. rewrite ?app_nil_r. repeat split; eauto using classify_calls.
      * destruct (next st1) as [[r2 st2] l2] eqn:En. simpl in E.
        injection E as <- <- <-.
        exists l0, l2. repeat split; eauto using classify_calls.
    + simpl in E. injection E as <- <- <-.
      exists l0, []. rewrite ?app_nil_r. repeat split; eauto using classify_calls.
  - injection E as <- <- <-. exists [], []. repeat split; auto.
Qed.

End LoopFacts.

(** ** Predicate groups *)

Section MatchingFacts.
Context {World Event Exn : Type}.

Local Abbreviation pyval := (pyval World Exn).
Local Abbreviation predicate := (predicate World Event Exn).
Local Abbreviation handler_method := (handler_method World Event Exn).
Local Abbreviation state := (state World Exn).

Variable event : Event.
Variable val : predicate -> pyval.

Lemma call_pred_pure p st :
  (pure_at event val) p -> call_pred event p st = (Ok (val p), st, names [p]).
Proof.
  intros Hp. unfold call_pred, perform. rewrite Hp. now destruct st.
Qed.

Lemma py_all_pure clause st :
  Forall (pure_at event val) clause ->
  py_all (map (call_pred event) clause) st
  = (Ok (Spec.clause_matches (holds val) clause), st, names (Spec.clause_calls (holds val) clause)).
Proof.
  induction 1 as [|p clause Hp _ IH]; [reflexivity|].
  cbn [map py_all]. unfold bind. rewrite (call_pred_pure st Hp).
  unfold Spec.clause_matches, Spec.clause_calls in *. cbn [forallb Spec.up_to_first].
  unfold holds at 1 3. destruct (truthy (val p)); cbn [negb andb].
  - rewrite IH. reflexivity.
  - reflexivity.
Qed.

Lemma py_any_pure clauses st :
  Forall (Forall (pure_at event val)) clauses ->
  py_any (map (fun c => py_all (map (call_pred event) c)) clauses) st
  = (Ok (existsb (Spec.clause_matches (holds val)) clauses), st,
     names (flat_map (Spec.clause_calls (holds val))
                     (Spec.up_to_first (Spec.clause_matches (holds val)) clauses))).
Proof.
  induction 1 as [|c clauses Hc _ IH]; [reflexivity|].
  cbn [map py_any]. unfold bind. rewrite (py_all_pure st Hc).
  cbn [existsb Spec.up_to_first].
  destruct (Spec.clause_matches (holds val) c); cbn [orb flat_map].
  - cbn. now rewrite !app_nil_r.
  - rewrite IH. unfold names. now rewrite map_app.
Qed.


Lemma skips_pure g st :
  group_pure event val g ->
  skips g event st
  = (Ok (negb (Spec.group_matches (holds val) g)), st, names (Spec.group_calls (holds val) g)).
Proof.
  destruct g as [clauses|]; intros Hg; [|reflexivity].
  unfold skips, bind. rewrite (py_any_pure st Hg). cbn. now rewrite app_nil_r.
Qed.


End MatchingFacts.


(** ** Unwinding of the middleware stack *)

Section UnwindFacts.
Context {World Event Exn : Type}.

Local Abbreviation predicate := (predicate World Event Exn).
Local Abbreviation handler_method := (handler_method World Event Exn).

Lemma process_event_log
      (handlers : list (option (list (list predicate)) * handler_method))
      (event : Event) (w : World) :
  let '(body, st, l1) := run_handlers handlers event (MkState w []) in
  let '(_, _, l2) :=
    aexit (exit_callbacks st)
          (match body with Ok _ => None | Raise e => Some e end) (world st) in
  snd (process_event handlers event w) = l1 ++ l2.
Proof.
  unfold process_event.
  destruct (run_handlers handlers event (MkState w [])) as [[body st] l1].
  destruct (aexit (exit_callbacks st) _ (world st)) as [[[s|e] w'] l2];
    reflexivity.
Qed.


End UnwindFacts.

(** ** Reaching a declaration *)

Section ReachFacts.
Context {World Event Exn : Type}.

Local Abbreviation pyval := (pyval World Exn).
Local Abbreviation predicate := (predicate World Event Exn).
Local Abbreviation handler_method := (handler_method World Event Exn).
Local Abbreviation state := (state World Exn).
Local Abbreviation M := (M World Exn).
Local Abbreviation registry := (list (option (list (list predicate)) * handler_method)).

Lemma bind_ext {A B : Type} (m : M A) (f g : A -> M B) st :
  (forall a st', f a st' = g a st') -> bind m f st = bind m g st.
Proof.
  intros Hfg. unfold bind. destruct (m st) as [[[a|e] st1] l1]; [|reflexivity].
  now rewrite Hfg.
Qed.

Lemma bind_and_then {A : Type} (m : M A) (f : A -> M loop_exit) k st :
  and_then (bind m f) k st = bind m (fun a => and_then (f a) k) st.
Proof.
  unfold and_then, bind. destruct (m st) as [[[a|e] st1] l1]; [|reflexivity].
  destruct (f a st1) as [[[[|]|e] st2] l2]; cbn [after]; try reflexivity.
  now rewrite after_after.
Qed.

Lemma invoke_and_then (hm : handler_method) (event : Event) next k st :
  and_then (invoke hm event next) k st = invoke hm event (and_then next k) st.
Proof.
  unfold invoke. rewrite bind_and_then. apply bind_ext. intros ret_val st1.
  rewrite bind_and_then. apply bind_ext. intros v st2.
  destruct (negb (truthy v)); reflexivity.
Qed.

Lemma invoke_ext (hm : handler_method) (event : Event) next next' st :
  (forall st', next st' = next' st') ->
  invoke hm event next st = invoke hm event next' st.
Proof.
  intros Hn. unfold invoke. apply bind_ext. intros ret_val st1.
  apply bind_ext. intros v st2. destruct (negb (truthy v)); auto.
Qed.

(** The loop over a registry cut in two. *)
Lemma run_handlers_app (pre hs : registry) (event : Event) st :
  run_handlers (pre ++ hs) event st
  = and_then (run_handlers pre event) (run_handlers hs event) st.
Proof.
  revert st. induction pre as [|[g hm] pre IH]; intros st.
  - unfold and_then. simpl. now rewrite after_nil.
  - cbn [app run_handlers]. rewrite bind_and_then. apply bind_ext.
    intros skip st1. destruct skip.
    + apply IH.
    + rewrite invoke_and_then. now apply invoke_ext.
Qed.

Lemma subsequence_count (l m : list string) (x : string) :
  subsequence l m -> ~ In x m -> count_occ string_dec l x = 0.
Proof.
  intros Hsub Hnot. apply count_occ_not_In. intros Hin.
  apply Hnot. eapply subsequence_In; eauto.
Qed.

Lemma count_occ_calls_app (l1 l2 : list (obs Exn)) (x : string) :
  count_occ string_dec (calls_of (l1 ++ l2)) x
  = count_occ string_dec (calls_of l1) x + count_occ string_dec (calls_of l2) x.
Proof. now rewrite calls_of_app, count_occ_app. Qed.

Lemma run_handlers_no_call (handlers : registry) (event : Event) st r st' l x :
  run_handlers handlers event st = (r, st', l) ->
  ~ In x (method_names handlers) ->
  count_occ string_dec (calls_of l) x = 0.
Proof.
  intros E Hnot. destruct (tidy_run_handlers handlers event _ E) as (Hsub & _).
  eapply subsequence_count; eauto.
Qed.

(** C5, amended. An unconditional handler whose method occurs once in the
    registry is invoked exactly once when the loop reaches its declaration,
    that is when the loop over the declarations before it runs out of them
    without a false-equivalent result and without an exception; when the
    loop ends earlier the handler is not invoked at all. *)
Theorem unconditional_handler_invoked_when_reached
        (pre post : registry) (hm : handler_method) (event : Event) (w : World) :
  ~ In (hm_name hm) (method_names (pre ++ post)) ->
  let '(reached, _, _) := run_handlers pre event (MkState w []) in
  count_occ string_dec
            (calls_of (snd (process_event (pre ++ (None, hm) :: post) event w)))
            (hm_name hm)
  = match reached with
    | Ok Exhausted => 1
    | _ => 0
    end.
Proof.
  intros Hnot.
  assert (Hpre : ~ In (hm_name hm) (method_names pre)).
  { intros Hin. apply Hnot. unfold method_names in *. rewrite map_app.
    apply in_or_app. now left. }
  assert (Hpost : ~ In (hm_name hm) (method_names post)).
  { intros Hin. apply Hnot. unfold method_names in *. rewrite map_app.
    apply in_or_app. now right. }
  pose proof (process_event_log (pre ++ (None, hm) :: post) event w) as Hlog.
  rewrite run_handlers_app in Hlog. unfold and_then in Hlog.
  destruct (run_handlers pre event (MkState w [])) as [[reached st1] l1] eqn:E1.
  assert (Hl1 : count_occ string_dec (calls_of l1) (hm_name hm) = 0)
    by (eapply run_handlers_no_call; eauto).
  assert (Hunwind : forall (cbs : list (exit_callback World Exn)) exc w0,
             count_occ string_dec
                       (calls_of (snd (aexit cbs exc w0))) (hm_name hm) = 0).
  { intros cbs exc w0. pose proof (aexit_log cbs exc w0) as Hx.
    destruct (aexit cbs exc w0) as [[r' w'] l']. destruct Hx as (Hx & _).
    cbn [snd]. now rewrite Hx. }
  destruct reached as [[|]|e].
  - (* reached: the declaration runs its method at once *)
    cbn [run_handlers skips] in Hlog. unfold bind at 1 in Hlog.
    cbn [ret after] in Hlog. cbn [app] in Hlog.
    destruct (invoke hm event (run_handlers post event) st1)
      as [[body st2] l2] eqn:E2.
    destruct (invoke_shape _ _ _ _ E2) as (l0 & tail & -> & Hl0 & Htail).
    cbn [after] in Hlog.
    specialize (Hunwind (exit_callbacks st2)
                  (match body with Ok _ => None | Raise e => Some e end) (world st2)).
    destruct (aexit (exit_callbacks st2) _ (world st2)) as [[r' w'] l3].
    rewrite Hlog. cbn [snd] in Hunwind.
    change (ObsCall (hm_name hm) :: l0 ++ tail)
      with ([ObsCall (Exn:=Exn) (hm_name hm)] ++ l0 ++ tail).
    rewrite !count_occ_calls_app, Hl1, Hunwind, Hl0.
    assert (Htl : count_occ string_dec (calls_of tail) (hm_name hm) = 0).
    { destruct Htail as [->|[st3 E3]]; [reflexivity|].
      eapply run_handlers_no_call; eauto. }
    rewrite Htl. cbn. destruct (string_dec (hm_name hm) (hm_name hm)); [reflexivity|].
    congruence.
  - specialize (Hunwind (exit_callbacks st1) None (world st1)).
    destruct (aexit (exit_callbacks st1) None (world st1)) as [[r' w'] l3].
    rewrite Hlog, count_occ_calls_app, Hl1. exact Hunwind.
  - specialize (Hunwind (exit_callbacks st1) (Some e) (world st1)).
    destruct (aexit (exit_callbacks st1) (Some e) (world st1)) as [[r' w'] l3].
    rewrite Hlog, count_occ_calls_app, Hl1. exact Hunwind.
Qed.

End ReachFacts.

(** ** Interpreting the result of a handler *)

Section ContinuationFacts.
Context {World Event Exn : Type}.

Local Abbreviation pyval := (pyval World Exn).
Local Abbreviation predicate := (predicate World Event Exn).
Local Abbreviation handler_method := (handler_method World Event Exn).
Local Abbreviation state := (state World Exn).
Local Abbreviation M := (M World Exn).
Local Abbreviation registry := (list (option (list (list predicate)) * handler_method)).

Lemma classify_plain (v : pyval) (s : state) :
  plain_value v = true -> classify v s = (Ok v, s, []).
Proof. destruct v; intros Hplain; try discriminate Hplain; reflexivity. Qed.

Variable hm : handler_method.
Variable event : Event.
Variable next : M loop_exit.
Variable st : state.
Variable ret_val : pyval.
Variable w1 : World.
Hypothesis Hcall : hm_call hm event (world st) = (Ok ret_val, w1).

Lemma invoke_plain :
  plain_value ret_val = true ->
  invoke hm event next st
  = after [ObsCall (hm_name hm)]
          (if truthy ret_val then next (MkState w1 (exit_callbacks st))
           else (Ok Broke, MkState w1 (exit_callbacks st), [])).
Proof.
  intros Hplain. unfold invoke, bind, perform. rewrite Hcall.
  rewrite classify_plain by exact Hplain. cbn [after app].
  destruct (truthy ret_val); cbn [negb ret after app]; [|reflexivity].
  destruct (next _) as [[r s'] l]. reflexivity.
Qed.

Lemma invoke_coroutine run v w2 :
  ret_val = VCoroutine run ->
  run w1 = (Ok v, w2) ->
  invoke hm event next st
  = after [ObsCall (hm_name hm); ObsAwait]
          (if truthy v then next (MkState w2 (exit_callbacks st))
           else (Ok Broke, MkState w2 (exit_callbacks st), [])).
Proof.
  intros Hret Hrun. unfold invoke, bind, perform. rewrite Hcall, Hret.
  cbn [classify perform world exit_callbacks]. unfold perform.
  cbn [world exit_callbacks]. rewrite Hrun. cbn [after app].
  destruct (truthy v); cbn [negb ret after app]; [|reflexivity].
  destruct (next _) as [[r s'] l]. reflexivity.
Qed.


End ContinuationFacts.

Section ContinuationClaims.
Context {World Event Exn : Type}.

Local Abbreviation pyval := (pyval World Exn).
Local Abbreviation predicate := (predicate World Event Exn).
Local Abbreviation handler_method := (handler_method World Event Exn).
Local Abbreviation state := (state World Exn).
Local Abbreviation M := (M World Exn).
Local Abbreviation registry := (list (option (list (list predicate)) * handler_method)).

Lemma run_handlers_unconditional (hm : handler_method) (rest : registry)
      (event : Event) (st : state) :
  run_handlers ((None, hm) :: rest) event st
  = invoke hm event (run_handlers rest event) st.
Proof. cbn [run_handlers skips]. unfold bind at 1. cbn [ret]. apply after_nil. Qed.

Lemma process_event_calls (handlers : registry) (event : Event) (w : World) :
  calls_of (snd (process_event handlers event w))
  = calls_of (snd (run_handlers handlers event (MkState w []))).
Proof.
  pose proof (process_event_log handlers event w) as Hlog.
  destruct (run_handlers handlers event (MkState w [])) as [[body st] l1].
  pose proof (aexit_log (exit_callbacks st)
                (match body with Ok _ => None | Raise e => Some e end)
                (world st)) as Hx.
  destruct (aexit (exit_callbacks st) _ (world st)) as [[r w'] l2].
  destruct Hx as (Hx & _). rewrite Hlog, calls_of_app, Hx. cbn [snd].
  apply app_nil_r.
Qed.

Lemma calls_of_after {A S : Type} (l : list (obs Exn)) (x : A * S * list (obs Exn)) :
  calls_of (snd (after l x)) = calls_of l ++ calls_of (snd x).
Proof. destruct x as [[r s] l']. cbn [after snd]. apply calls_of_app. Qed.

Lemma invoke_last_calls (hm : handler_method) (event : Event) (st : state) :
  calls_of (snd (invoke hm event (run_handlers [] event) st)) = [hm_name hm].
Proof.
  destruct (invoke hm event (run_handlers [] event) st) as [[r st'] l] eqn:E.
  destruct (invoke_shape _ _ _ _ E) as (l0 & tail & -> & Hl0 & Htail).
  assert (tail = []) as ->.
  { destruct Htail as [|[st2 E2]]; [assumption|]. simpl in E2. now injection E2. }
  cbn [snd]. rewrite app_nil_r.
  change (ObsCall (hm_name hm) :: l0) with ([ObsCall (Exn:=Exn) (hm_name hm)] ++ l0).
  now rewrite calls_of_app, Hl0.
Qed.


(** C9. When a handler method returns a coroutine, the value the coroutine
    resolves to only decides whether the loop goes on: nothing is entered
    and the exit stack is left as it was, also when that value is itself a
    context manager (a true value, so the loop goes on). A result of
    [classify] that is not a context manager itself never enters a scope
    nor changes the stack. *)
Theorem awaited_value_is_only_a_flag
        (hm : handler_method) (event : Event) (next : M loop_exit)
        (st : state) run (w1 : World) (v : pyval) (w2 : World) :
  hm_call hm event (world st) = (Ok (VCoroutine run), w1) ->
  run w1 = (Ok v, w2) ->
  invoke hm event next st
  = after [ObsCall (hm_name hm); ObsAwait]
          (if truthy v then next (MkState w2 (exit_callbacks st))
           else (Ok Broke, MkState w2 (exit_callbacks st), [])) /\
  (is_scope v = true ->
   invoke hm event next st
   = after [ObsCall (hm_name hm); ObsAwait]
           (next (MkState w2 (exit_callbacks st)))) /\
  (forall (ret_val : pyval) (st0 : state) r st' l,
      classify ret_val st0 = (r, st', l) ->
      is_scope ret_val = false ->
      entered_of l = [] /\ exit_callbacks st' = exit_callbacks st0).
Proof.
  intros Hcall Hrun.
  assert (Hinv := invoke_coroutine hm event next st Hcall eq_refl Hrun).
  split; [exact Hinv|]. split.
  - intros Hscope. rewrite Hinv. now destruct v.
  - intros ret_val st0 r st' l E Hns.
    destruct ret_val; try discriminate Hns;
      try (injection E as <- <- <-; now split).
    cbn [classify] in E. unfold perform in E.
    destruct (run0 (world st0)) as [r0 w0]. injection E as <- <- <-. now split.
Qed.

(** C10. Whether the loop goes on after a handler is the truth value of
    its result in the sense of Python, not a comparison with [False] or
    [None]: with two unconditional handlers, the second is called iff the
    result of the first, or the value its coroutine resolves to, is true.
    The integer 0, the empty string and the empty list are false; a
    non-zero integer, a non-empty string, a non-empty list and any other
    object are true. *)
Theorem stop_condition_is_truthiness
        (h1 h2 : handler_method) (event : Event) (w : World)
        (ret_val : pyval) (w1 : World) :
  hm_call h1 event w = (Ok ret_val, w1) ->
  (plain_value ret_val = true ->
   calls_of (snd (process_event [(None, h1); (None, h2)] event w))
   = hm_name h1 :: (if truthy ret_val then [hm_name h2] else [])) /\
  (forall run v w2,
      ret_val = VCoroutine run ->
      run w1 = (Ok v, w2) ->
      calls_of (snd (process_event [(None, h1); (None, h2)] event w))
      = hm_name h1 :: (if truthy v then [hm_name h2] else [])) /\
  truthy (VInt 0 : pyval) = false /\
  truthy (VStr EmptyString : pyval) = false /\
  truthy (VList [] : pyval) = false /\
  (forall z, z <> 0%Z -> truthy (VInt z : pyval) = true) /\
  (forall s, s <> EmptyString -> truthy (VStr s : pyval) = true) /\
  (forall x l, truthy (VList (x :: l) : pyval) = true) /\
  (forall name, truthy (VObject name : pyval) = true).
Proof.
  intros Hcall.
  assert (Hnext : forall s : state,
             calls_of (snd (run_handlers [(None, h2)] event s)) = [hm_name h2]).
  { intros s. rewrite run_handlers_unconditional. apply invoke_last_calls. }
  split; [|split].
  - intros Hplain. rewrite process_event_calls, run_handlers_unconditional.
    rewrite (invoke_plain h1 event _ (MkState w []) Hcall Hplain).
    rewrite calls_of_after. cbn [calls_of flat_map app].
    destruct (truthy ret_val); [now rewrite Hnext | reflexivity].
  - intros run v w2 Hret Hrun.
    rewrite process_event_calls, run_handlers_unconditional.
    rewrite (invoke_coroutine h1 event _ (MkState w []) Hcall Hret Hrun).
    rewrite calls_of_after. cbn [calls_of flat_map app].
    destruct (truthy v); [now rewrite Hnext | reflexivity].
  - repeat split; try reflexivity.
    + intros z Hz. cbn. apply Z.eqb_neq in Hz. now rewrite Hz.
    + intros s Hs. cbn. apply String.eqb_neq in Hs. now rewrite Hs.
Qed.

End ContinuationClaims.

(** ** A handler error and the exit actions *)

Section HandlerErrorFacts.
Context {World Event Exn : Type}.

Local Abbreviation predicate := (predicate World Event Exn).
Local Abbreviation handler_method := (handler_method World Event Exn).
Local Abbreviation registry := (list (option (list (list predicate)) * handler_method)).
Local Abbreviation record := (option Exn * exit_outcome Exn)%type.

Lemma exit_records_app (l1 l2 : list (obs Exn)) :
  exit_records (l1 ++ l2) = exit_records l1 ++ exit_records l2.
Proof. apply flat_map_app. Qed.

Lemma exit_records_none (l : list (obs Exn)) :
  exited_of l = [] -> exit_records l = [].
Proof.
  induction l as [|o l IH]; [reflexivity|].
  destruct o; simpl; auto. discriminate.
Qed.


Lemma find_last {A : Type} (f : A -> bool) (l : list A) (x : A) :
  find f (l ++ [x])
  = match find f l with
    | Some y => Some y
    | None => if f x then Some x else None
    end.
Proof.
  induction l as [|y l IH]; cbn [app find]; [reflexivity|].
  destruct (f y); [reflexivity | exact IH].
Qed.

Lemma last_decisive_cons (x : record) (xs : list record) :
  last_decisive (x :: xs)
  = match last_decisive xs with
    | Some o => Some o
    | None => if passed x then None else Some (snd x)
    end.
Proof.
  unfold last_decisive. cbn [rev]. rewrite find_last.
  destruct (find (fun y => negb (passed y)) (rev xs)); [reflexivity|].
  now destruct (passed x).
Qed.

Lemma last_decisive_raised (xs : list record) (e : Exn) :
  last_decisive xs = Some (ExitRaised e) -> existsb raised xs = true.
Proof.
  unfold last_decisive.
  destruct (find (fun y => negb (passed y)) (rev xs)) as [x|] eqn:E;
    [|discriminate].
  intros Hx. injection Hx as Hx. apply find_some in E as (Hin & _).
  apply existsb_exists. exists x. split.
  - now apply in_rev.
  - unfold raised. now rewrite Hx.
Qed.

Lemma last_decisive_falsy (xs : list record) :
  last_decisive xs <> Some ExitFalsy.
Proof.
  unfold last_decisive.
  destruct (find (fun y => negb (passed y)) (rev xs)) as [x|] eqn:E;
    [|discriminate].
  apply find_some in E as (_ & Hx). intros Heq. injection Heq as Heq.
  unfold passed in Hx. rewrite Heq in Hx. discriminate.
Qed.

(** What one exit action does to the exception in flight. *)
Lemma left_by_cons (exc : option Exn) (x : record) (xs : list record) :
  left_by exc (x :: xs)
  = left_by (match snd x with
             | ExitFalsy => exc
             | ExitTruthy => None
             | ExitRaised e => Some e
             end) xs.
Proof.
  unfold left_by. rewrite last_decisive_cons.
  pose proof (last_decisive_falsy xs) as Hnf.
  destruct (last_decisive xs) as [[| |e]|]; try reflexivity.
  - now elim Hnf.
  - destruct x as [ex [| |e]]; reflexivity.
Qed.

(** The unwinding loop in terms of its records: what each exit action is
    called with, and the three variables at the end. *)
Lemma aexit_loop_chain (cbs : list (exit_callback World Exn)) exc s p w :
  let '((exc', s', p'), _, l) := aexit_loop cbs exc s p w in
  (forall pre x post,
      exit_records l = pre ++ x :: post -> fst x = left_by exc pre) /\
  exc' = left_by exc (exit_records l) /\
  p' = match last_decisive (exit_records l) with
       | Some (ExitRaised _) => true
       | Some _ => false
       | None => p
       end /\
  s' = (s || existsb suppressed (exit_records l))%bool.
Proof.
  revert exc s p w. induction cbs as [|cb rest IH]; intros exc s p w;
    cbn [aexit_loop].
  - repeat split.
    + intros pre x post E. destruct pre; discriminate E.
    + now rewrite orb_false_r.
  - assert (Hstep :
              forall out exc1 s1 p1,
                exc1 = match out with
                       | ExitFalsy => exc
                       | ExitTruthy => None
                       | ExitRaised e => Some e
                       end ->
                p1 = match out with
                     | ExitFalsy => p
                     | ExitTruthy => false
                     | ExitRaised _ => true
                     end ->
                s1 = match out with
                     | ExitTruthy => true
                     | _ => s
                     end ->
                forall w1,
                  let '((exc', s', p'), _, l) :=
                    match aexit_loop rest exc1 s1 p1 w1 with
                    | (r, w2, l) =>
                        (r, w2, ObsExit (cb_is_sync cb) (cb_name cb) exc out :: l)
                    end in
                  (forall pre x post,
                      exit_records l = pre ++ x :: post ->
                      fst x = left_by exc pre) /\
                  exc' = left_by exc (exit_records l) /\
                  p' = match last_decisive (exit_records l) with
                       | Some (ExitRaised _) => true
                       | Some _ => false
                       | None => p
                       end /\
                  s' = (s || existsb suppressed (exit_records l))%bool).
    { intros out exc1 s1 p1 Hexc Hp Hs w1.
      specialize (IH exc1 s1 p1 w1).
      destruct (aexit_loop rest exc1 s1 p1 w1) as [[[[exc' s'] p'] w2] l].
      destruct IH as (IH1 & IH2 & IH3 & IH4).
      cbn [exit_records flat_map app].
      change (flat_map _ l) with (exit_records l).
      split; [|split; [|split]].
      - intros pre x post E. destruct pre as [|z pre0]; cbn [app] in E.
        + injection E as <- _. reflexivity.
        + injection E as <- E. rewrite left_by_cons. cbn [snd].
          rewrite <- Hexc. eauto.
      - rewrite left_by_cons. cbn [snd]. now rewrite <- Hexc.
      - rewrite last_decisive_cons, IH3.
        destruct (last_decisive (exit_records l)) as [o|]; [reflexivity|].
        rewrite Hp. now destruct out.
      - rewrite IH4, Hs. cbn [existsb]. unfold suppressed at 2. cbn [snd].
        destruct out; cbn [orb]; auto using orb_true_r. }
    destruct (cb_exit cb exc w) as [[v|e] w1].
    + destruct (truthy v).
      * exact (Hstep ExitTruthy None true false eq_refl eq_refl eq_refl w1).
      * exact (Hstep ExitFalsy exc s p eq_refl eq_refl eq_refl w1).
    + exact (Hstep (ExitRaised e) (Some e) s true eq_refl eq_refl eq_refl w1).
Qed.

(** A pending raise always has its exception: the last branch of [aexit]
    that returns without one is never taken. *)
Lemma pending_raise_has_exception (cbs : list (exit_callback World Exn)) exc s p w :
  (p = true -> exc <> None) ->
  let '((exc', _, p'), _, _) := aexit_loop cbs exc s p w in
  p' = true -> exc' <> None.
Proof.
  revert exc s p w. induction cbs as [|cb rest IH]; intros exc s p w Hp;
    cbn [aexit_loop]; [exact Hp|].
  destruct (cb_exit cb exc w) as [[v|e] w1].
  - destruct (truthy v).
    + specialize (IH None true false w1).
      destruct (aexit_loop rest None true false w1) as [[[[exc' s'] p'] w2] l].
      apply IH. discriminate.
    + specialize (IH exc s p w1 Hp).
      destruct (aexit_loop rest exc s p w1) as [[[[exc' s'] p'] w2] l].
      exact IH.
  - specialize (IH (Some e) s true w1).
    destruct (aexit_loop rest (Some e) s true w1) as [[[[exc' s'] p'] w2] l].
    apply IH. discriminate.
Qed.


End HandlerErrorFacts.

(** ** Declarations *)

Import Declaration.

Section DeclarationFacts.
Variable P : Type.
Variable H : Type.

Local Abbreviation attr := (handler_attr P).
Local Abbreviation member_def := (member_def P H).
Local Abbreviation namespace := (namespace P H).

Lemma decl_error_unique (e : decl_error) : e = AssertionError.
Proof. now destruct e. Qed.

Lemma handler_unconditional (a : attr) :
  handler [] a = match a with
                 | AttrMissing => Ok AttrNone
                 | _ => Raise AssertionError
                 end.
Proof. now destruct a. Qed.

Lemma handler_conditional (predicates : list P) (a : attr) :
  conditional predicates ->
  handler predicates a
  = match a with
    | AttrMissing => Ok (AttrList [predicates])
    | AttrNone => Raise AssertionError
    | AttrList acc => Ok (AttrList (acc ++ [predicates]))
    end.
Proof.
  intros Hc. destruct predicates as [|p ps]; [now elim Hc|]. now destruct a.
Qed.

(** A stack is accepted only in three shapes: no decorator, the single
    unconditional one, or conditional ones only. *)
Lemma decorate_ok (decorators : list (list P)) (a : attr) :
  decorate decorators AttrMissing = Ok a ->
  a = declared_attr decorators /\
  (decorators = [] \/ decorators = [[]] \/
   (decorators <> [] /\ Forall conditional decorators)).
Proof.
  revert a. induction decorators as [|d inner IH]; intros a E.
  - injection E as <-. split; auto.
  - cbn [decorate] in E.
    destruct (decorate inner AttrMissing) as [a'|e]; [|discriminate E].
    destruct (IH a' eq_refl) as (-> & Hshape).
    destruct d as [|p ps].
    + (* an unconditional annotation on top *)
      rewrite handler_unconditional in E.
      destruct Hshape as [->|[->|(Hne & Hall)]].
      * injection E as <-. split; auto.
      * discriminate E.
      * destruct inner as [|d' inner']; [now elim Hne|].
        unfold declared_attr in E.
        destruct (existsb (@is_unconditional P) (d' :: inner')); discriminate E.
    + (* a conditional annotation on top *)
      rewrite handler_conditional in E by discriminate.
      destruct Hshape as [->|[->|(Hne & Hall)]].
      * injection E as <-. split; [reflexivity|].
        right; right. split; [discriminate|]. repeat constructor. discriminate.
      * discriminate E.
      * assert (Hex : existsb (@is_unconditional P) inner = false).
        { clear -Hall. induction Hall as [|x l Hx _ IHl]; [reflexivity|].
          cbn [existsb]. rewrite IHl.
          destruct x; [now elim Hx | reflexivity]. }
        destruct inner as [|d' inner']; [now elim Hne|].
        unfold declared_attr in E. rewrite Hex in E. injection E as <-.
        split.
        -- unfold declared_attr. cbn [existsb is_unconditional orb] in Hex |- *.
           now rewrite Hex.
        -- right; right. split; [discriminate|].
           constructor; [discriminate | assumption].
Qed.

Lemma decorate_conditional (decorators : list (list P)) :
  decorators <> [] ->
  Forall conditional decorators ->
  decorate decorators AttrMissing = Ok (AttrList (rev decorators)).
Proof.
  induction decorators as [|d inner IH]; intros Hne Hall; [now elim Hne|].
  inversion Hall as [|? ? Hd Hinner]; subst. cbn [decorate].
  destruct inner as [|d' inner'].
  - cbn [decorate]. now rewrite handler_conditional.
  - rewrite IH by (assumption || discriminate).
    now rewrite handler_conditional.
Qed.

Lemma decorate_mixed (decorators : list (list P)) :
  In [] decorators ->
  2 <= List.length decorators ->
  decorate decorators AttrMissing = Raise AssertionError.
Proof.
  intros Hin Hlen.
  destruct (decorate decorators AttrMissing) as [a|e] eqn:E.
  - destruct (decorate_ok _ E) as (_ & [->|[->|(_ & Hall)]]).
    + contradiction.
    + simpl in Hlen. lia.
    + rewrite Forall_forall in Hall. now elim (Hall [] Hin).
  - now rewrite (decl_error_unique e).
Qed.

Lemma exec_body_raises (body : list member_def) (ns : namespace) (m : member_def) :
  In m body ->
  decorate (def_decorators m) AttrMissing = Raise AssertionError ->
  exec_body body ns = Raise AssertionError.
Proof.
  revert ns. induction body as [|m' rest IH]; intros ns Hin Hbad; [contradiction|].
  cbn [exec_body].
  destruct (decorate (def_decorators m') AttrMissing) as [a|e] eqn:E.
  - destruct Hin as [->|Hin]; [congruence|]. now apply IH.
  - now rewrite (decl_error_unique e).
Qed.

Lemma ns_set_fresh (k : string) (v : pyfunction P H) (ns : namespace) :
  ~ In k (map fst ns) -> ns_set k v ns = ns ++ [(k, v)].
Proof.
  induction ns as [|[k' v'] rest IH]; intros Hnot; [reflexivity|].
  cbn [ns_set]. destruct (String.eqb_spec k k') as [->|Hne].
  - elim Hnot. now left.
  - cbn [app]. f_equal. apply IH. intros Hin. apply Hnot. now right.
Qed.

(** With each name bound once, the namespace lists the members in the
    order of their [def]s. *)
Lemma exec_body_ok (body : list member_def) (ns ns' : namespace) :
  NoDup (map fst ns ++ map (@def_name P H) body) ->
  exec_body body ns = Ok ns' ->
  ns' = ns ++ map bound body.
Proof.
  revert ns. induction body as [|m rest IH]; intros ns Hnd E.
  - injection E as <-. now rewrite app_nil_r.
  - cbn [exec_body] in E.
    destruct (decorate (def_decorators m) AttrMissing) as [a|e] eqn:Ed;
      [|discriminate E].
    destruct (decorate_ok _ Ed) as (-> & _).
    cbn [map] in Hnd.
    assert (Hfresh : ~ In (def_name m) (map fst ns)).
    { apply NoDup_remove_2 in Hnd. intros Hin. apply Hnd.
      apply in_or_app. now left. }
    rewrite ns_set_fresh in E by assumption.
    apply IH in E.
    + rewrite E, <- app_assoc. reflexivity.
    + rewrite map_app, <- app_assoc. cbn [map fst app].
      replace (map fst ns ++ def_name m :: map (@def_name P H) rest)
        with (map fst ns ++ [def_name m] ++ map (@def_name P H) rest) in Hnd
        by reflexivity.
      exact Hnd.
Qed.

Lemma conditional_not_unconditional (decorators : list (list P)) :
  Forall conditional decorators ->
  existsb (@is_unconditional P) decorators = false.
Proof.
  induction 1 as [|x l Hx _ IHl]; [reflexivity|].
  cbn [existsb]. rewrite IHl. destruct x; [now elim Hx | reflexivity].
Qed.

Lemma bound_entry (decorators : list (list P)) (a : attr) :
  decorate decorators AttrMissing = Ok a ->
  hasattr (declared_attr decorators)
  = match decorators with [] => false | _ :: _ => true end /\
  match declared_attr decorators with
  | AttrList predicates => Some (rev predicates)
  | _ => None
  end = match decorators with
        | [] => None
        | _ :: _ => declared_group decorators
        end.
Proof.
  intros Ea. destruct (decorate_ok _ Ea) as (_ & [->|[->|(Hne & Hall)]]).
  - now split.
  - now split.
  - destruct decorators as [|d ds]; [now elim Hne|].
    unfold declared_attr, declared_group.
    rewrite conditional_not_unconditional by assumption.
    now rewrite rev_involutive.
Qed.

Lemma init_subclass_bound (body : list member_def) :
  (forall m, In m body ->
             exists a, decorate (def_decorators m) AttrMissing = Ok a) ->
  init_subclass (map bound body)
  = map (fun m => (declared_group (def_decorators m), def_code m))
        (filter annotated body).
Proof.
  induction body as [|m rest IH]; intros Hok; [reflexivity|].
  destruct (Hok m (or_introl eq_refl)) as (a & Ea).
  destruct (bound_entry _ Ea) as (Hattr & Hgroup).
  assert (IH' := IH (fun m' Hin => Hok m' (or_intror Hin))). clear IH.
  unfold init_subclass in *. cbn [map filter snd bound fn_attr].
  rewrite Hattr. unfold annotated at 1.
  destruct (def_decorators m) as [|d ds] eqn:Ed; [exact IH'|].
  cbn [map fn_attr fn_code]. rewrite Hgroup, IH', Ed. reflexivity.
Qed.

Lemma exec_body_members_ok (body : list member_def) (ns ns' : namespace) :
  exec_body body ns = Ok ns' ->
  forall m, In m body -> exists a, decorate (def_decorators m) AttrMissing = Ok a.
Proof.
  revert ns. induction body as [|m' rest IH]; intros ns E m Hin; [contradiction|].
  cbn [exec_body] in E.
  destruct (decorate (def_decorators m') AttrMissing) as [a|e] eqn:Ed;
    [|discriminate E].
  destruct Hin as [->|Hin]; [eauto|]. eapply IH; eauto.
Qed.

(** The registry a class statement builds. *)
Lemma class_stmt_registry (body : list member_def) (cls : processor_class P H) :
  NoDup (map (@def_name P H) body) ->
  class_stmt body = Ok cls ->
  _handlers cls
  = map (fun m => (declared_group (def_decorators m), def_code m))
        (filter annotated body).
Proof.
  intros Hnd E. unfold class_stmt in E.
  destruct (exec_body body []) as [ns|e] eqn:Eb; [|discriminate E].
  injection E as <-. cbn [_handlers].
  pose proof (exec_body_members_ok _ _ Eb) as Hok.
  apply exec_body_ok in Eb; [|exact Hnd]. cbn [app] in Eb. subst ns.
  now apply init_subclass_bound.
Qed.

End DeclarationFacts.

Section DeclarationClaims.
Variable P : Type.
Variable H : Type.

Local Abbreviation member_def := (member_def P H).

(** C6. A method whose stack of annotations contains the unconditional
    one together with any other annotation (a conditional one above it, a
    conditional one below it, or the unconditional one again) makes its
    decoration raise [AssertionError], and with it the class statement: no
    class object, hence no registry, comes into existence. *)
Theorem mixed_annotations_fail_at_class_definition
        (body : list member_def) (m : member_def) :
  In m body ->
  In [] (def_decorators m) ->
  2 <= List.length (def_decorators m) ->
  decorate (def_decorators m) AttrMissing = Raise AssertionError /\
  class_stmt body = Raise AssertionError /\
  (forall predicates : list P,
      conditional predicates ->
      decorate [[]; predicates] AttrMissing = Raise AssertionError /\
      decorate [predicates; []] AttrMissing = Raise AssertionError) /\
  decorate [[]; []] (@AttrMissing P) = Raise AssertionError.
Proof.
  intros Hin Hun Hlen.
  assert (Hbad : decorate (def_decorators m) AttrMissing = Raise AssertionError)
    by now apply decorate_mixed.
  split; [exact Hbad|]. split.
  - unfold class_stmt. now rewrite (@exec_body_raises P H body [] m Hin Hbad).
  - split; [|reflexivity].
    intros predicates Hc. split; apply decorate_mixed; simpl; auto.
Qed.

(** C7. Each conditional annotation appends the tuple of its predicates,
    in argument order, to the list kept on the method; a stack of
    conditional annotations leaves them on the method with the one nearest
    to [def] first; and [__init_subclass__] reverses that list, so the
    registry entry of the method lists the AND-clauses in the order of the
    annotation lines, top to bottom. *)
Theorem stacked_annotations_keep_source_order
        (decorators : list (list P)) (name : string) (code : H) :
  decorators <> [] ->
  Forall (@conditional P) decorators ->
  (forall (predicates : list P) (acc : list (list P)),
      conditional predicates ->
      handler predicates AttrMissing = Ok (AttrList [predicates]) /\
      handler predicates (AttrList acc) = Ok (AttrList (acc ++ [predicates]))) /\
  decorate decorators AttrMissing = Ok (AttrList (rev decorators)) /\
  init_subclass [(name, MkFunction code (AttrList (rev decorators)))]
  = [(Some decorators, code)] /\
  (forall (body : list member_def) cls,
      NoDup (map (@def_name P H) body) ->
      class_stmt body = Ok cls ->
      In (MkMember name decorators code) body ->
      In (Some decorators, code) (_handlers cls)).
Proof.
  intros Hne Hall. split; [|split; [|split]].
  - intros predicates acc Hc. split; now rewrite handler_conditional.
  - now apply decorate_conditional.
  - unfold init_subclass. cbn. now rewrite rev_involutive.
  - intros body cls Hnd Hcls Hin.
    rewrite (@class_stmt_registry P H body cls Hnd Hcls).
    apply in_map_iff. exists (MkMember name decorators code). split.
    + cbn [def_decorators def_code]. unfold declared_group.
      now rewrite conditional_not_unconditional.
    + apply filter_In. split; [assumption|].
      unfold annotated. cbn [def_decorators].
      destruct decorators; [now elim Hne | reflexivity].
Qed.

End DeclarationClaims.

Section RegistryClaims.
Context {World Event Exn : Type}.

Local Abbreviation predicate := (predicate World Event Exn).
Local Abbreviation handler_method := (handler_method World Event Exn).

(** C8. The class statement builds the registry once: for a class body
    that binds each name once, it is the sequence of (Predicate Group Set,
    handler method) pairs of the annotated members in the order of their
    definitions. An instance has no registry of its own, and every call of
    [process_event], on any instance, for any event and in any world, calls
    handler methods drawn in order from that one sequence. *)
Theorem registry_built_once_in_declaration_order
        (body : list (member_def predicate handler_method))
        (cls : processor_class predicate handler_method) :
  NoDup (map (@def_name predicate handler_method) body) ->
  class_stmt body = Ok cls ->
  _handlers cls
  = map (fun m => (declared_group (def_decorators m), def_code m))
        (filter (@annotated predicate handler_method) body) /\
  (forall (self : instance World Event Exn) (event : Event) (w : World),
      inst_class self = cls ->
      subsequence
        (calls_of (snd (dispatch self event w)))
        (map (fun m => hm_name (def_code m))
             (filter (@annotated predicate handler_method) body))).
Proof.
  intros Hnd Hcls.
  pose proof (@class_stmt_registry _ _ body cls Hnd Hcls) as Hreg.
  split; [exact Hreg|].
  intros self event w Hself. unfold dispatch. rewrite Hself.
  rewrite process_event_calls.
  destruct (run_handlers (_handlers cls) event (MkState w []))
    as [[r st] l] eqn:E.
  destruct (tidy_run_handlers _ _ _ E) as (Hsub & _).
  rewrite Hreg, map_map in Hsub. exact Hsub.
Qed.

End RegistryClaims.

(** ** The properties on the processors of the test suite *)


(** The three ways the loop ends, each with a scope entered before. *)
Example unwinding_after_normal_end :
  process_event [(None, Examples.middleware "watch" Examples.watcher);
                 (None, Examples.handler_returns_abc)]
                Examples.start_message []
  = (Ok tt, ["watcher.enter"; "handler_returns_abc"; "watcher.exit"],
     [ObsCall "watch"; ObsEnter true "watcher" true;
      ObsCall "handler_returns_abc";
      ObsExit true "watcher" None ExitFalsy]).
Proof. reflexivity. Qed.

Example unwinding_after_early_stop :
  process_event ((None, Examples.middleware "watch" Examples.watcher)
                   :: Examples.test_none)
                Examples.start_message []
  = (Ok tt, ["watcher.enter"; "first_handler"; "watcher.exit"],
     [ObsCall "watch"; ObsEnter true "watcher" true;
      ObsCall "first_handler";
      ObsExit true "watcher" None ExitFalsy]).
Proof. reflexivity. Qed.

Example unwinding_after_handler_error :
  process_event [(None, Examples.middleware "watch" Examples.watcher);
                 (None, Examples.boom);
                 (None, Examples.second_handler)]
                Examples.start_message []
  = (Raise "RuntimeError", ["watcher.enter"; "boom"],
     [ObsCall "watch"; ObsEnter true "watcher" true;
      ObsCall "boom";
      ObsExit true "watcher" (Some "RuntimeError") ExitFalsy]).
Proof. reflexivity. Qed.

(** [MiddlewareTestCase.test_sync_exception]: the middleware swallows the
    error of the handler and its exit runs once. *)
Example test_sync_exception :
  process_event [(None, Examples.middleware "sync_middleware" Examples.guard);
                 (None, Examples.boom)]
                Examples.start_message []
  = (Ok tt, ["guard.enter"; "boom"; "guard.caught"],
     [ObsCall "sync_middleware"; ObsEnter true "guard" true;
      ObsCall "boom";
      ObsExit true "guard" (Some "RuntimeError") ExitTruthy]).
Proof. reflexivity. Qed.



(** C5, as stated, fails: in [test_none] the first handler returns [None],
    the loop stops, and the unconditional second handler is not invoked. *)
Lemma unconditional_handler_counterexample :
  calls_of (snd (process_event Examples.test_none Examples.start_message []))
  = ["first_handler"] /\
  count_occ string_dec
            (calls_of (snd (process_event Examples.test_none
                                          Examples.start_message [])))
            "second_handler"
  <> 1.
Proof. split; [reflexivity|]. cbn. discriminate. Qed.

Lemma unconditional_handler_invoked_when_reached_witness :
  ~ In (hm_name Examples.second_handler)
       (method_names ([(None, Examples.handler_returns_abc)] ++ [])) /\
  count_occ string_dec
            (calls_of (snd (process_event
                              ([(None, Examples.handler_returns_abc)]
                                 ++ (None, Examples.second_handler) :: [])
                              Examples.start_message [])))
            (hm_name Examples.second_handler)
  = 1.
Proof.
  assert (Hnot : ~ In (hm_name Examples.second_handler)
                      (method_names ([(None, Examples.handler_returns_abc)] ++ []))).
  { cbn. intros [Heq|[]]. discriminate Heq. }
  split; [exact Hnot|].
  exact (unconditional_handler_invoked_when_reached
           [(None, Examples.handler_returns_abc)] []
           Examples.second_handler Examples.start_message [] Hnot).
Defined.

Lemma awaited_value_is_only_a_flag_witness :
  hm_call Examples.async_returns_scope Examples.start_message (world Examples.fresh)
  = (Ok (VCoroutine (fun w' => (Ok Examples.guard, w' ++ ["resolved"]))), []) /\
  invoke Examples.async_returns_scope Examples.start_message
         (run_handlers [(None, Examples.second_handler)] Examples.start_message)
         Examples.fresh
  = (Ok Broke, MkState ["resolved"; "second_handler"] [],
     [ObsCall "async_returns_scope"; ObsAwait; ObsCall "second_handler"]).
Proof.
  assert (Hcall :
            hm_call Examples.async_returns_scope Examples.start_message
                    (world Examples.fresh)
            = (Ok (VCoroutine (fun w' => (Ok Examples.guard, w' ++ ["resolved"]))), []))
    by reflexivity.
  split; [exact Hcall|].
  exact (proj1 (awaited_value_is_only_a_flag
                  Examples.async_returns_scope Examples.start_message
                  (run_handlers [(None, Examples.second_handler)]
                                Examples.start_message)
                  Examples.fresh Hcall
                  (eq_refl : (fun w' : Examples.world =>
                                (Ok Examples.guard, w' ++ ["resolved"])) []
                             = (Ok Examples.guard, ["resolved"])))).
Defined.

Lemma stop_condition_is_truthiness_witness :
  hm_call Examples.handler_returns_zero Examples.start_message []
  = (Ok (VInt 0), ["handler_returns_zero"]) /\
  calls_of (snd (process_event [(None, Examples.handler_returns_zero);
                                (None, Examples.second_handler)]
                               Examples.start_message []))
  = ["handler_returns_zero"].
Proof.
  assert (Hcall : hm_call Examples.handler_returns_zero Examples.start_message []
                  = (Ok (VInt 0), ["handler_returns_zero"])) by reflexivity.
  split; [exact Hcall|].
  exact (proj1 (stop_condition_is_truthiness
                  Examples.handler_returns_zero Examples.second_handler
                  Examples.start_message [] Hcall) eq_refl).
Defined.

Lemma mixed_annotations_fail_at_class_definition_witness :
  In (Declaration.MkMember "handler_with_incorrect_predicates"
                           [[]; [Examples.always_true]] Examples.handle_event)
     Examples.incorrect_body /\
  class_stmt Examples.incorrect_body = Raise AssertionError.
Proof.
  assert (Hin : In (Declaration.MkMember "handler_with_incorrect_predicates"
                                         [[]; [Examples.always_true]]
                                         Examples.handle_event)
                   Examples.incorrect_body) by (left; reflexivity).
  split; [exact Hin|].
  exact (proj1 (proj2 (mixed_annotations_fail_at_class_definition
                         Examples.incorrect_body _ Hin
                         (or_introl eq_refl) (le_n 2)))).
Defined.

Lemma stacked_annotations_keep_source_order_witness :
  Examples.docstring_decorators <> [] /\
  decorate Examples.docstring_decorators AttrMissing
  = Ok (AttrList [[Examples.is_message_created; Examples.is_start_command];
                  [Examples.is_bot_started]]) /\
  class_stmt Examples.docstring_body
  = Ok (MkClass [(Some Examples.docstring_decorators, Examples.handle_event)]).
Proof.
  assert (Hne : Examples.docstring_decorators <> []) by discriminate.
  assert (Hall : Forall (@conditional _) Examples.docstring_decorators)
    by (repeat constructor; discriminate).
  split; [exact Hne|]. split; [|reflexivity].
  exact (proj1 (proj2 (stacked_annotations_keep_source_order
                         (H:=handler_method Examples.world Examples.event Examples.exn)
                         "handle_event" Examples.handle_event Hne Hall))).
Defined.

Lemma registry_built_once_in_declaration_order_witness :
  NoDup (map (@def_name _ _) Examples.bot_body) /\
  class_stmt Examples.bot_body
  = Ok (MkClass [(None, Examples.middleware "sync_middleware" Examples.guard);
                 (Some Examples.docstring_decorators, Examples.handler_returns_abc);
                 (None, Examples.second_handler)]) /\
  map (fun d => hm_name (snd d))
      [(None, Examples.middleware "sync_middleware" Examples.guard);
       (Some Examples.docstring_decorators, Examples.handler_returns_abc);
       (None, Examples.second_handler)]
  = ["sync_middleware"; "handler_returns_abc"; "second_handler"].
Proof.
  assert (Hnd : NoDup (map (@def_name _ _) Examples.bot_body)).
  { cbn. repeat constructor; cbn; intuition discriminate. }
  assert (Hcls : class_stmt Examples.bot_body
                 = Ok (MkClass [(None, Examples.middleware "sync_middleware" Examples.guard);
                                (Some Examples.docstring_decorators,
                                 Examples.handler_returns_abc);
                                (None, Examples.second_handler)]))
    by reflexivity.
  split; [exact Hnd|]. split; [exact Hcls|].
  exact (f_equal (map (fun d => hm_name (snd d)))
                 (proj1 (@registry_built_once_in_declaration_order
                          _ _ _ Examples.bot_body _ Hnd Hcls))).
Defined.

(** * Further properties of the dispatch loop *)

Section ErrorFacts.
Context {World Event Exn : Type}.

Local Abbreviation pyval := (pyval World Exn).
Local Abbreviation predicate := (predicate World Event Exn).
Local Abbreviation handler_method := (handler_method World Event Exn).
Local Abbreviation state := (state World Exn).
Local Abbreviation M := (M World Exn).
Local Abbreviation registry := (list (option (list (list predicate)) * handler_method)).

Variable event : Event.
Variable val : predicate -> pyval.

Lemma names_app (ps qs : list predicate) :
  names (ps ++ qs) = names ps ++ names qs.
Proof. unfold names. apply map_app. Qed.





End ErrorFacts.


Section LoopExtras.
Context {World Event Exn : Type}.

Local Abbreviation pyval := (pyval World Exn).
Local Abbreviation predicate := (predicate World Event Exn).
Local Abbreviation handler_method := (handler_method World Event Exn).
Local Abbreviation state := (state World Exn).
Local Abbreviation registry := (list (option (list (list predicate)) * handler_method)).

(** X3. Declarations are processed strictly in order. The loop over a
    registry cut in two is the loop over the first part and then, only when
    that part ran out of declarations, the loop over the second part in the
    world and with the exit stack the first part left; after an exception
    in the first part nothing of the second part runs, and the whole call
    is the call on the first part alone. *)
Theorem loop_over_concatenation (pre post : registry) (event : Event) :
  (forall st : state,
      run_handlers (pre ++ post) event st
      = match run_handlers pre event st with
        | (Ok Exhausted, st1, l1) => after l1 (run_handlers post event st1)
        | other => other
        end) /\
  (forall w e st' l,
      run_handlers pre event (MkState w []) = (Raise e, st', l) ->
      process_event (pre ++ post) event w = process_event pre event w).
Proof.
  split.
  - intros st. apply run_handlers_app.
  - intros w e st' l Hpre. unfold process_event.
    rewrite run_handlers_app. unfold and_then. now rewrite Hpre.
Qed.

Lemma subsequence_NoDup {A : Type} (l m : list A) :
  subsequence l m -> NoDup m -> NoDup l.
Proof.
  induction 1 as [m|x l m Hsub IH|x l m Hsub IH]; intros Hnd.
  - constructor.
  - inversion Hnd; auto.
  - inversion Hnd as [|? ? Hnot Hnd']; subst. constructor; auto.
    intros Hin. apply Hnot. eapply subsequence_In; eauto.
Qed.

(** X4. When the handler methods of a registry have distinct names, no
    handler method is invoked twice during one call of [process_event]. *)
Theorem no_handler_invoked_twice (handlers : registry) (event : Event) (w : World) :
  NoDup (method_names handlers) ->
  NoDup (calls_of (snd (process_event handlers event w))).
Proof.
  intros Hnd. rewrite process_event_calls.
  destruct (run_handlers handlers event (MkState w [])) as [[r st] l] eqn:E.
  destruct (tidy_run_handlers handlers event _ E) as (Hsub & _).
  cbn [snd]. eapply subsequence_NoDup; eauto.
Qed.

Variable event : Event.
Variable val : predicate -> pyval.

Lemma run_handlers_unmatched (handlers : registry) (st : state) :
  Forall (fun d => group_pure event val (fst d) /\
                   Spec.group_matches (holds val) (fst d) = false) handlers ->
  run_handlers handlers event st
  = (Ok Exhausted, st,
     names (flat_map (fun d => Spec.group_calls (holds val) (fst d)) handlers)).
Proof.
  induction 1 as [|[g hm] rest (Hpure & Hno) _ IH]; [reflexivity|].
  cbn [run_handlers fst] in *. unfold bind at 1.
  rewrite (@skips_pure _ _ _ event val g st Hpure), Hno. cbn [negb after].
  rewrite IH. cbn [flat_map fst after]. now rewrite names_app.
Qed.

(** X5. An event that no declaration matches is ignored: with pure
    predicates and no matching group, [process_event] returns normally,
    calls no handler method, enters and exits nothing and leaves the world
    as it was; only the predicates the short-circuit rule asks for are
    called. *)
Theorem unmatched_event_is_ignored (handlers : registry) (w : World) :
  Forall (fun d => group_pure event val (fst d) /\
                   Spec.group_matches (holds val) (fst d) = false) handlers ->
  process_event handlers event w
  = (Ok tt, w,
     names (flat_map (fun d => Spec.group_calls (holds val) (fst d)) handlers)).
Proof.
  intros Hall. unfold process_event.
  rewrite (run_handlers_unmatched (MkState w []) Hall). cbn.
  now rewrite app_nil_r.
Qed.

End LoopExtras.

Lemma loop_over_concatenation_witness :
  run_handlers [(None, Examples.boom)] Examples.start_message (MkState [] [])
  = (Raise "RuntimeError", MkState ["boom"] [], [ObsCall "boom"]) /\
  process_event ([(None, Examples.boom)] ++ Examples.test_none)
                Examples.start_message []
  = process_event [(None, Examples.boom)] Examples.start_message [].
Proof.
  assert (Hpre : run_handlers [(None, Examples.boom)] Examples.start_message
                              (MkState [] [])
                 = (Raise "RuntimeError", MkState ["boom"] [], [ObsCall "boom"]))
    by reflexivity.
  split; [exact Hpre|].
  exact (proj2 (loop_over_concatenation [(None, Examples.boom)] Examples.test_none
                                        Examples.start_message)
               [] "RuntimeError" _ _ Hpre).
Defined.

Lemma no_handler_invoked_twice_witness :
  NoDup (method_names Examples.guarded_in_watcher) /\
  NoDup (calls_of (snd (process_event Examples.guarded_in_watcher
                                      Examples.start_message []))).
Proof.
  assert (Hnd : NoDup (method_names Examples.guarded_in_watcher)).
  { cbn. repeat constructor; cbn; intuition discriminate. }
  split; [exact Hnd|].
  exact (no_handler_invoked_twice Examples.guarded_in_watcher
                                  Examples.start_message [] Hnd).
Defined.

Lemma unmatched_event_is_ignored_witness :
  Forall (fun d => group_pure Examples.other_message (Examples.value_at Examples.other_message) (fst d) /\
                   Spec.group_matches (holds (Examples.value_at Examples.other_message)) (fst d)
                   = false)
         [(Examples.docstring_group, Examples.handle_event)] /\
  process_event [(Examples.docstring_group, Examples.handle_event)] Examples.other_message []
  = (Ok tt, [],
     [ObsPred "is_bot_started"; ObsPred "is_message_created"]).
Proof.
  assert (Hall :
            Forall (fun d => group_pure Examples.other_message (Examples.value_at Examples.other_message) (fst d) /\
                             Spec.group_matches (holds (Examples.value_at Examples.other_message)) (fst d)
                             = false)
                   [(Examples.docstring_group, Examples.handle_event)]).
  { repeat constructor. }
  split; [exact Hall|].
  exact (@unmatched_event_is_ignored
           _ _ _ Examples.other_message (Examples.value_at Examples.other_message)
           [(Examples.docstring_group, Examples.handle_event)] [] Hall).
Defined.


(** * Further properties of the unwinding *)

Section UnwindExtras.
Context {World Event Exn : Type}.

Local Abbreviation predicate := (predicate World Event Exn).
Local Abbreviation handler_method := (handler_method World Event Exn).
Local Abbreviation registry := (list (option (list (list predicate)) * handler_method)).
Local Abbreviation record := (option Exn * exit_outcome Exn)%type.

Lemma process_event_chain (handlers : registry) (event : Event) (w : World) :
  let '(body, st, l1) := run_handlers handlers event (MkState w []) in
  let exc := match body with Ok _ => None | Raise e => Some e end in
  let '((exc', s', p'), _, l2) :=
    aexit_loop (exit_callbacks st) exc false false (world st) in
  exit_records (snd (process_event handlers event w)) = exit_records l2 /\
  fst (fst (process_event handlers event w))
  = (if p' then match exc' with
                 | Some e => Raise e
                 | None => match body with Ok _ => Ok tt | Raise e => Raise e end
                 end
     else match body with
          | Ok _ => Ok tt
          | Raise e => if s' then Ok tt else Raise e
          end).
Proof.
  unfold process_event, aexit.
  destruct (run_handlers handlers event (MkState w [])) as [[body st] l1] eqn:E.
  destruct (tidy_run_handlers handlers event _ E) as (_ & Hx & _).
  apply exit_records_none in Hx.
  destruct (aexit_loop (exit_callbacks st) _ false false (world st))
    as [[[[exc' s'] p'] w2] l2].
  destruct p'.
  - destruct exc' as [e'|]; cbn [fst snd andb]; rewrite exit_records_app, Hx;
      split; try reflexivity; now destruct body.
  - destruct body as [lx|e]; cbn [fst snd andb]; rewrite exit_records_app, Hx;
      split; try reflexivity; now destruct s'.
Qed.


(** X7. Each exit action is called with the exception in flight at that
    moment: the exception of the loop (none when the loop ended normally)
    as long as the exit actions before it returned false values, no
    exception once the last of them that did not return a false value
    suppressed, and the exception that one raised otherwise. *)
Theorem exit_action_observes_exception_in_flight
        (handlers : registry) (event : Event) (w : World) :
  let '(body, _, _) := run_handlers handlers event (MkState w []) in
  let '(_, _, log) := process_event handlers event w in
  forall pre x post,
    exit_records log = pre ++ x :: post ->
    fst x = left_by (match body with Ok _ => None | Raise e => Some e end) pre.
Proof.
  pose proof (process_event_chain handlers event w) as Hpe.
  destruct (run_handlers handlers event (MkState w [])) as [[body st] l1].
  cbv zeta in Hpe.
  pose proof (aexit_loop_chain (exit_callbacks st)
                (match body with Ok _ => None | Raise e => Some e end)
                false false (world st)) as Hchain.
  destruct (aexit_loop (exit_callbacks st) _ false false (world st))
    as [[[[exc' s'] p'] w2] l2].
  destruct Hpe as (Hrec & _). destruct Hchain as (Hobs & _).
  destruct (process_event handlers event w) as [[r w'] log].
  cbn [snd] in Hrec. rewrite Hrec. exact Hobs.
Qed.

(** X8. When the loop ends without an exception and no exit action
    raises, [process_event] returns normally and every exit action is
    called without an exception. *)
Theorem normal_completion
        (handlers : registry) (event : Event) (w : World)
        (how : loop_exit) (st : state World Exn) (loop_log : list (obs Exn)) :
  run_handlers handlers event (MkState w []) = (Ok how, st, loop_log) ->
  let '(r, _, log) := process_event handlers event w in
  existsb raised (exit_records log) = false ->
  r = Ok tt /\ Forall (fun x => fst x = None) (exit_records log).
Proof.
  intros Hloop.
  pose proof (process_event_chain handlers event w) as Hpe.
  rewrite Hloop in Hpe. cbv zeta in Hpe.
  pose proof (aexit_loop_chain (exit_callbacks st) None false false (world st))
    as Hchain.
  destruct (aexit_loop (exit_callbacks st) None false false (world st))
    as [[[[exc' s'] p'] w2] l2].
  destruct Hpe as (Hrec & Hres).
  destruct Hchain as (Hobs & Hexc & Hp & _).
  destruct (process_event handlers event w) as [[r w'] log].
  cbn [fst snd] in Hrec, Hres. rewrite Hrec, Hres. intros Hnr.
  assert (Hnone : forall xs : list record,
             existsb raised xs = false -> left_by None xs = None).
  { intros xs Hxs. unfold left_by.
    destruct (last_decisive xs) as [[| |e]|] eqn:E; try reflexivity.
    apply last_decisive_raised in E. congruence. }
  split.
  - rewrite Hp.
    destruct (last_decisive (exit_records l2)) as [[| |e]|] eqn:E;
      try reflexivity.
    apply last_decisive_raised in E. congruence.
  - apply Forall_forall. intros x Hin.
    apply in_split in Hin as (pre & post & Hsplit).
    rewrite (Hobs pre x post Hsplit). apply Hnone.
    rewrite Hsplit, existsb_app in Hnr.
    now apply orb_false_elim in Hnr as (Hpre & _).
Qed.

End UnwindExtras.

Lemma normal_completion_witness :
  run_handlers [(None, Examples.middleware "sync_middleware" Examples.guard);
                (None, Examples.handler_returns_abc)]
               Examples.start_message (MkState [] [])
  = (Ok Exhausted,
     snd (fst (run_handlers
                 [(None, Examples.middleware "sync_middleware" Examples.guard);
                  (None, Examples.handler_returns_abc)]
                 Examples.start_message (MkState [] []))),
     [ObsCall "sync_middleware"; ObsEnter true "guard" true;
      ObsCall "handler_returns_abc"]) /\
  fst (fst (process_event
              [(None, Examples.middleware "sync_middleware" Examples.guard);
               (None, Examples.handler_returns_abc)]
              Examples.start_message []))
  = Ok tt.
Proof.
  assert (Hloop :
            run_handlers [(None, Examples.middleware "sync_middleware" Examples.guard);
                          (None, Examples.handler_returns_abc)]
                         Examples.start_message (MkState [] [])
            = (Ok Exhausted,
               snd (fst (run_handlers
                           [(None, Examples.middleware "sync_middleware" Examples.guard);
                            (None, Examples.handler_returns_abc)]
                           Examples.start_message (MkState [] []))),
               [ObsCall "sync_middleware"; ObsEnter true "guard" true;
                ObsCall "handler_returns_abc"]))
    by reflexivity.
  split; [exact Hloop|].
  exact (proj1 (normal_completion _ _ _ Hloop eq_refl)).
Defined.

(** An exit action that raises after another one suppressed: the caller
    observes the exception of the outer one. *)
Example last_exit_decides :
  process_event [(None, Examples.middleware "outer" (Examples.leaking "outer" "OuterError"));
                 (None, Examples.middleware "inner" (Examples.leaking "inner" "InnerError"));
                 (None, Examples.boom)]
                Examples.start_message []
  = (Raise "OuterError", ["outer.enter"; "inner.enter"; "boom"; "inner.exit"; "outer.exit"],
     [ObsCall "outer"; ObsEnter true "outer" true;
      ObsCall "inner"; ObsEnter true "inner" true;
      ObsCall "boom";
      ObsExit true "inner" (Some "RuntimeError") (ExitRaised "InnerError");
      ObsExit true "outer" (Some "InnerError") (ExitRaised "OuterError")]).
Proof. reflexivity. Qed.

(** * Further properties of class creation *)

Section ClassExtras.
Variable P : Type.
Variable H : Type.

Local Abbreviation attr := (handler_attr P).
Local Abbreviation member_def := (member_def P H).
Local Abbreviation namespace := (namespace P H).

Lemma decorate_acceptable (decorators : list (list P)) :
  acceptable decorators ->
  exists a, decorate decorators AttrMissing = Ok a.
Proof.
  intros [->|Hall].
  - now exists AttrNone.
  - destruct decorators as [|d ds].
    + now exists AttrMissing.
    + exists (AttrList (rev (d :: ds))).
      apply decorate_conditional; [discriminate | assumption].
Qed.

Lemma exec_body_succeeds (body : list member_def) (ns : namespace) :
  (forall m, In m body ->
             exists a, decorate (def_decorators m) AttrMissing = Ok a) ->
  exists ns', exec_body body ns = Ok ns'.
Proof.
  revert ns. induction body as [|m rest IH]; intros ns Hok.
  - now exists ns.
  - cbn [exec_body]. destruct (Hok m (or_introl eq_refl)) as (a & ->).
    apply IH. intros m' Hin. apply Hok. now right.
Qed.

(** X9. A class statement creates the class exactly when every method
    of its body carries an acceptable stack of annotations: none, the
    unconditional annotation alone, or conditional annotations only. *)
Theorem class_created_iff_annotations_acceptable (body : list member_def) :
  (exists cls, class_stmt body = Ok cls)
  <-> Forall (fun m => acceptable (def_decorators m)) body.
Proof.
  split.
  - intros (cls & Hcls). unfold class_stmt in Hcls.
    destruct (exec_body body []) as [ns|e] eqn:E; [|discriminate Hcls].
    apply Forall_forall. intros m Hin.
    destruct (exec_body_members_ok _ _ E m Hin) as (a & Ha).
    destruct (decorate_ok _ Ha) as (_ & [Hd|[Hd|(_ & Hall)]]).
    + right. rewrite Hd. constructor.
    + now left.
    + now right.
  - intros Hall. rewrite Forall_forall in Hall.
    destruct (@exec_body_succeeds body []) as (ns & Hns).
    { intros m Hin. apply decorate_acceptable. now apply Hall. }
    exists (MkClass (init_subclass ns)). unfold class_stmt. now rewrite Hns.
Qed.

Lemma declared_attr_ok (decorators : list (list P)) (a : attr) :
  decorate decorators AttrMissing = Ok a -> attr_ok a.
Proof.
  intros Ha. destruct (decorate_ok _ Ha) as (-> & [->|[->|(Hne & Hall)]]);
    try exact I.
  destruct decorators as [|d ds]; [now elim Hne|].
  unfold declared_attr. rewrite conditional_not_unconditional by assumption.
  split.
  - intros Hrev. apply (f_equal (@List.length _)) in Hrev.
    rewrite length_rev in Hrev. discriminate Hrev.
  - now apply Forall_rev.
Qed.

Lemma ns_set_ok (k : string) (v : pyfunction P H) (ns : namespace) :
  attr_ok (fn_attr v) ->
  Forall (fun kv => attr_ok (fn_attr (snd kv))) ns ->
  Forall (fun kv => attr_ok (fn_attr (snd kv))) (ns_set k v ns).
Proof.
  intros Hv. induction 1 as [|[k' v'] rest Hkv Hrest IH]; cbn [ns_set].
  - now repeat constructor.
  - destruct (String.eqb k k'); constructor; auto.
Qed.

Lemma exec_body_ok_attrs (body : list member_def) (ns ns' : namespace) :
  Forall (fun kv => attr_ok (fn_attr (snd kv))) ns ->
  exec_body body ns = Ok ns' ->
  Forall (fun kv => attr_ok (fn_attr (snd kv))) ns'.
Proof.
  revert ns. induction body as [|m rest IH]; intros ns Hns E.
  - now injection E as <-.
  - cbn [exec_body] in E.
    destruct (decorate (def_decorators m) AttrMissing) as [a|e] eqn:Ea;
      [|discriminate E].
    eapply IH; [|exact E]. apply ns_set_ok; [|assumption].
    cbn [fn_attr]. eapply declared_attr_ok; eauto.
Qed.

(** X10. Whatever the class body, also one that binds a name more than
    once, every entry of the registry of a created class has either no
    group or a group of at least one AND-clause, each of at least one
    predicate: a group that can never match, and an AND-clause that matches
    everything, do not occur. *)
Theorem registry_groups_well_formed (body : list member_def)
        (cls : processor_class P H) :
  class_stmt body = Ok cls ->
  Forall (fun d => well_formed_group (fst d)) (_handlers cls).
Proof.
  intros Hcls. unfold class_stmt in Hcls.
  destruct (exec_body body []) as [ns|e] eqn:E; [|discriminate Hcls].
  injection Hcls as <-. cbn [_handlers].
  assert (Hns : Forall (fun kv => attr_ok (fn_attr (snd kv))) ns)
    by (eapply exec_body_ok_attrs; [constructor | exact E]).
  unfold init_subclass. apply Forall_map. apply Forall_forall.
  intros f Hin. apply filter_In in Hin as (Hin & _).
  apply in_map_iff in Hin as (kv & <- & Hin).
  rewrite Forall_forall in Hns. specialize (Hns kv Hin). cbn [fst].
  destruct (fn_attr (snd kv)) as [| |l]; try exact I.
  destruct Hns as (Hne & Hall). split.
  - intros Hrev. apply Hne. apply (f_equal (@rev _)) in Hrev.
    now rewrite rev_involutive in Hrev.
  - now apply Forall_rev.
Qed.

(** Binding in the namespace. *)
Lemma ns_set_twice (k : string) (v1 v2 : pyfunction P H) (ns : namespace) :
  ns_set k v2 (ns_set k v1 ns) = ns_set k v2 ns.
Proof.
  induction ns as [|[k' v'] rest IH]; cbn [ns_set].
  - now rewrite String.eqb_refl.
  - destruct (String.eqb k k') eqn:E; cbn [ns_set].
    + now rewrite String.eqb_refl.
    + now rewrite E, IH.
Qed.

Lemma ns_set_keeps (k k' : string) (v' : pyfunction P H) (ns : namespace) :
  In k (map fst ns) -> In k (map fst (ns_set k' v' ns)).
Proof.
  induction ns as [|[k0 v0] rest IH]; cbn [ns_set map fst In]; [contradiction|].
  intros Hin. destruct (String.eqb_spec k' k0) as [Heq|Hne]; cbn [map fst In].
  - destruct Hin as [Hk|Hin]; [left; congruence | right; exact Hin].
  - destruct Hin as [Hk|Hin]; [left; exact Hk | right; now apply IH].
Qed.

Lemma ns_set_swap (k k' : string) (v v' : pyfunction P H) (ns : namespace) :
  k <> k' ->
  In k (map fst ns) ->
  ns_set k' v' (ns_set k v ns) = ns_set k v (ns_set k' v' ns).
Proof.
  intros Hne. induction ns as [|[k0 v0] rest IH]; cbn [map fst In];
    [contradiction|].
  intros Hin. cbn [ns_set].
  destruct (String.eqb_spec k k0) as [->|Hk]; destruct (String.eqb_spec k' k0) as [->|Hk'];
    cbn [ns_set].
  - now elim Hne.
  - rewrite String.eqb_refl. apply String.eqb_neq in Hk'. now rewrite Hk'.
  - rewrite String.eqb_refl. apply String.eqb_neq in Hk. now rewrite Hk.
  - apply String.eqb_neq in Hk as Hk1. apply String.eqb_neq in Hk' as Hk1'.
    rewrite Hk1, Hk1'. f_equal. apply IH.
    destruct Hin as [Heq|Hin]; [now elim Hk | exact Hin].
Qed.

Lemma exec_body_rebind (body : list member_def) (k : string)
      (v : pyfunction P H) (ns : namespace) :
  In k (map fst ns) ->
  ~ In k (map (@def_name P H) body) ->
  exec_body body (ns_set k v ns) = on_ok (ns_set k v) (exec_body body ns).
Proof.
  revert ns. induction body as [|m rest IH]; intros ns Hin Hnot; [reflexivity|].
  cbn [exec_body].
  destruct (decorate (def_decorators m) AttrMissing) as [a|e]; [|reflexivity].
  cbn [map In] in Hnot.
  rewrite ns_set_swap.
  - apply IH; [now apply ns_set_keeps | tauto].
  - intros Heq. apply Hnot. now left.
  - exact Hin.
Qed.

Lemma exec_body_app (l1 l2 : list member_def) (ns : namespace) :
  exec_body (l1 ++ l2) ns
  = match exec_body l1 ns with
    | Ok ns' => exec_body l2 ns'
    | Raise e => Raise e
    end.
Proof.
  revert ns. induction l1 as [|m rest IH]; intros ns; [reflexivity|].
  cbn [app exec_body].
  destruct (decorate (def_decorators m) AttrMissing); [apply IH | reflexivity].
Qed.

Lemma ns_set_binds (k : string) (v : pyfunction P H) (ns : namespace) :
  In k (map fst (ns_set k v ns)).
Proof.
  induction ns as [|[k' v'] rest IH]; cbn [ns_set].
  - now left.
  - destruct (String.eqb k k'); cbn [map fst In]; auto.
Qed.

(** X11. A method defined again later in the class body replaces the
    earlier definition, annotations included, at the place of the earlier
    one: the class statement behaves as if only the later definition had
    been written there. *)
Theorem redefinition_replaces_in_place
        (l1 l2 l3 : list member_def) (m1 m2 : member_def) :
  def_name m1 = def_name m2 ->
  ~ In (def_name m2) (map (@def_name P H) l2) ->
  (exists a, decorate (def_decorators m1) AttrMissing = Ok a) ->
  class_stmt (l1 ++ m1 :: l2 ++ m2 :: l3) = class_stmt (l1 ++ m2 :: l2 ++ l3).
Proof.
  intros Hname Hnot (a1 & Ha1). unfold class_stmt.
  rewrite !exec_body_app.
  destruct (exec_body l1 []) as [ns1|e1]; [|reflexivity].
  cbn [exec_body]. rewrite Ha1, Hname, !exec_body_app.
  set (k := def_name m2). set (v1 := MkFunction (def_code m1) a1).
  destruct (decorate (def_decorators m2) AttrMissing) as [a2|e2] eqn:Ha2.
  - set (v2 := MkFunction (def_code m2) a2).
    rewrite exec_body_app, <- (ns_set_twice k v1 v2 ns1).
    rewrite (@exec_body_rebind l2 k v2 (ns_set k v1 ns1) (ns_set_binds k v1 ns1) Hnot).
    destruct (exec_body l2 (ns_set k v1 ns1)) as [ns2|e]; [|reflexivity].
    cbn [on_ok exec_body]. now rewrite Ha2.
  - destruct (exec_body l2 (ns_set k v1 ns1)) as [ns2|e].
    + cbn [exec_body]. now rewrite Ha2.
    + now rewrite (decl_error_unique e), (decl_error_unique e2).
Qed.

End ClassExtras.

Lemma registry_groups_well_formed_witness :
  class_stmt Examples.bot_body
  = Ok (MkClass [(None, Examples.middleware "sync_middleware" Examples.guard);
                 (Some Examples.docstring_decorators, Examples.handler_returns_abc);
                 (None, Examples.second_handler)]) /\
  Forall (fun d => well_formed_group (fst d))
         [(None, Examples.middleware "sync_middleware" Examples.guard);
          (Some Examples.docstring_decorators, Examples.handler_returns_abc);
          (None, Examples.second_handler)].
Proof.
  assert (Hcls : class_stmt Examples.bot_body
                 = Ok (MkClass [(None, Examples.middleware "sync_middleware" Examples.guard);
                                (Some Examples.docstring_decorators,
                                 Examples.handler_returns_abc);
                                (None, Examples.second_handler)]))
    by reflexivity.
  split; [exact Hcls|].
  exact (@registry_groups_well_formed
           (predicate Examples.world Examples.event Examples.exn)
           (handler_method Examples.world Examples.event Examples.exn)
           Examples.bot_body _ Hcls).
Defined.

Lemma redefinition_replaces_in_place_witness :
  ~ In (def_name Examples.late_definition)
       (map (@def_name _ _) Examples.between_definitions) /\
  class_stmt ([] ++ Examples.early_definition
                 :: Examples.between_definitions
                 ++ Examples.late_definition :: [])
  = Ok (MkClass [(Some Examples.docstring_decorators, Examples.handle_event);
                 (None, Examples.second_handler)]).
Proof.
  assert (Hnot : ~ In (def_name Examples.late_definition)
                      (map (@def_name _ _) Examples.between_definitions)).
  { cbn. intros [Heq|[]]. discriminate Heq. }
  split; [exact Hnot|].
  exact (eq_trans
           (@redefinition_replaces_in_place
              _ _ [] Examples.between_definitions []
              Examples.early_definition Examples.late_definition
              eq_refl Hnot (ex_intro _ AttrNone eq_refl))
           eq_refl).
Defined.

(** * Exits come last *)

Section ExitOrder.
Context {World Event Exn : Type}.

Local Abbreviation predicate := (predicate World Event Exn).
Local Abbreviation handler_method := (handler_method World Event Exn).
Local Abbreviation registry := (list (option (list (list predicate)) * handler_method)).

Lemma no_exit_in (l : list (obs Exn)) :
  exited_of l = [] -> Forall (fun o => is_exit o = false) l.
Proof.
  induction l as [|o l IH]; intros Hx; constructor.
  - destruct o; try reflexivity. discriminate Hx.
  - apply IH. destruct o; try exact Hx. discriminate Hx.
Qed.

Lemma aexit_loop_only_exits (cbs : list (exit_callback World Exn)) exc s p w :
  Forall (fun o => is_exit o = true) (snd (aexit_loop cbs exc s p w)).
Proof.
  revert exc s p w. induction cbs as [|cb rest IH]; intros exc s p w;
    cbn [aexit_loop]; [constructor|].
  destruct (cb_exit cb exc w) as [[v|e] w1].
  - destruct (truthy v).
    + specialize (IH None true false w1).
      destruct (aexit_loop rest None true false w1) as [[r w2] l].
      now constructor.
    + specialize (IH exc s p w1).
      destruct (aexit_loop rest exc s p w1) as [[r w2] l].
      now constructor.
  - specialize (IH (Some e) s true w1).
    destruct (aexit_loop rest (Some e) s true w1) as [[r w2] l].
    now constructor.
Qed.

Lemma after_first_exit (a b l1 l2 : list (obs Exn)) (o : obs Exn) :
  Forall (fun x => is_exit x = false) a ->
  Forall (fun x => is_exit x = true) b ->
  a ++ b = l1 ++ o :: l2 ->
  is_exit o = true ->
  Forall (fun x => is_exit x = true) l2.
Proof.
  intros Ha Hb. revert l1. induction Ha as [|x a Hx _ IH]; intros l1 E Ho.
  - cbn [app] in E. rewrite E in Hb. apply Forall_app in Hb as (_ & Hb).
    now inversion Hb.
  - destruct l1 as [|y l1]; cbn [app] in E; injection E as Hy E.
    + subst. congruence.
    + eauto.
Qed.

(** X12. Scopes stay open until the dispatch is over: in the log of a
    call of [process_event], an exit method is followed by exit methods
    only, so no predicate, handler method, coroutine or enter method is
    called once the first scope has been exited. *)
Theorem exits_come_last (handlers : registry) (event : Event) (w : World) :
  forall l1 o l2,
    snd (process_event handlers event w) = l1 ++ o :: l2 ->
    is_exit o = true ->
    Forall (fun x => is_exit x = true) l2.
Proof.
  intros l1 o l2 Hlog Ho.
  pose proof (process_event_log handlers event w) as Hpe.
  destruct (run_handlers handlers event (MkState w [])) as [[body st] la] eqn:E.
  destruct (tidy_run_handlers handlers event _ E) as (_ & Hx & _).
  unfold aexit in Hpe.
  pose proof (aexit_loop_only_exits (exit_callbacks st)
                (match body with Ok _ => None | Raise e => Some e end)
                false false (world st)) as Hb.
  destruct (aexit_loop (exit_callbacks st) _ false false (world st))
    as [[[[exc' s'] p'] w2] lb].
  cbn [snd] in Hb. cbv beta iota zeta in Hpe. rewrite Hpe in Hlog.
  eapply (@after_first_exit la lb l1 l2 o);
    [apply no_exit_in; exact Hx | exact Hb | exact Hlog | exact Ho].
Qed.

End ExitOrder.

Lemma exits_come_last_witness :
  snd (process_event Examples.guarded_in_watcher Examples.start_message [])
  = [ObsCall "watch"; ObsEnter true "watcher" true;
     ObsCall "sync_middleware"; ObsEnter true "guard" true; ObsCall "boom"]
      ++ ObsExit true "guard" (Some "RuntimeError") ExitTruthy
      :: [ObsExit true "watcher" None ExitFalsy] /\
  Forall (fun x => is_exit x = true)
         [ObsExit true "watcher" (None : option Examples.exn) ExitFalsy].
Proof.
  assert (Hlog :
            snd (process_event Examples.guarded_in_watcher Examples.start_message [])
            = [ObsCall "watch"; ObsEnter true "watcher" true;
               ObsCall "sync_middleware"; ObsEnter true "guard" true; ObsCall "boom"]
                ++ ObsExit true "guard" (Some "RuntimeError") ExitTruthy
                :: [ObsExit true "watcher" None ExitFalsy])
    by reflexivity.
  split; [exact Hlog|].
  exact (exits_come_last Examples.guarded_in_watcher Examples.start_message []
                         _ _ _ Hlog eq_refl).
Defined.
